(** * Constant comparative analysis worker: a shallow embedding in Rocq

    Python strings are modelled as lists of Unicode code points ([pystr]);
    [u "..."] turns an ASCII literal into such a list.  Dicts keyed by
    segment keys are stdpp [gmap]s; dicts whose insertion order matters are
    association lists. *)

From Stdlib Require Import Strings.String Strings.Ascii NArith ZArith Lia.
From Stdlib Require Import Sorting.Sorted.
From stdpp Require Import base list gmap countable sorting.

Open Scope N_scope.

(** ** Python strings *)
Module PyStr.

Abbreviation pystr := (list N).

Definition u (s : string) : pystr :=
  map (fun a => N_of_ascii a) (list_ascii_of_string s).

(** [uj "..."]: like [u], with each single quote read as a double quote
    (for JSON text in examples). *)
Definition uj (s : string) : pystr :=
  map (fun c => if c =? 39 then 34 else c) (u s).

(** [str.isspace] (also the class [\s] of [re] on str patterns). *)
Definition is_space (c : N) : bool :=
  ((9 <=? c) && (c <=? 13)) || ((28 <=? c) && (c <=? 31)) || (c =? 32)
  || (c =? 133) || (c =? 160) || (c =? 5760)
  || ((8192 <=? c) && (c <=? 8202)) || (c =? 8232) || (c =? 8233)
  || (c =? 8239) || (c =? 8287) || (c =? 12288).

Fixpoint lstrip (s : pystr) : pystr :=
  match s with
  | [] => []
  | c :: r => if is_space c then lstrip r else s
  end.

Definition rstrip (s : pystr) : pystr := rev (lstrip (rev s)).

(** [str.strip()] *)
Definition strip (s : pystr) : pystr := rstrip (lstrip s).

(** [str.lower()] on the ASCII range. *)
Definition lower_char (c : N) : N :=
  if (65 <=? c) && (c <=? 90) then c + 32 else c.
Definition lower (s : pystr) : pystr := map lower_char s.

Fixpoint starts_with (p s : pystr) : bool :=
  match p, s with
  | [], _ => true
  | a :: p', b :: s' => (a =? b) && starts_with p' s'
  | _ :: _, [] => false
  end.

(** [str.find(ch)] as an option ([None] is Python's [-1]). *)
Fixpoint find_char (ch : N) (s : pystr) : option nat :=
  match s with
  | [] => None
  | c :: r => if c =? ch then Some 0%nat else option_map S (find_char ch r)
  end.

(** [str.rfind(ch)] *)
Definition rfind_char (ch : N) (s : pystr) : option nat :=
  match find_char ch (rev s) with
  | Some k => Some (length s - S k)%nat
  | None => None
  end.

(** [s[a:b]] for [0 <= a <= b]. *)
Definition slice (a b : nat) (s : pystr) : pystr := take (b - a) (drop a s).

(** [a in b] for strings: [a] is a substring of [b]. *)
Definition substring_of (a b : pystr) : Prop := exists k1 k2, b = k1 ++ a ++ k2.

(** Decimal rendering of an integer, as [str(int)]. *)
Fixpoint digits_N (fuel : nat) (n : N) (acc : pystr) : pystr :=
  match fuel with
  | O => (48 + n mod 10) :: acc
  | S f =>
      if n <? 10 then (48 + n) :: acc
      else digits_N f (n / 10) ((48 + n mod 10) :: acc)
  end.

Definition str_of_Z (z : Z) : pystr :=
  match z with
  | Z0 => [48]
  | Zpos p => digits_N (Pos.to_nat p) (Npos p) []
  | Zneg p => 45 :: digits_N (Pos.to_nat p) (Npos p) []
  end.

End PyStr.
Import PyStr.

(** ** [_trim_to_sentences] (worker.py, nested in [run_job]) *)
Module Trim.

Definition is_ender_char (c : N) : bool := (c =? 46) || (c =? 33) || (c =? 63).

(** The closer class of the pattern: right parenthesis, right bracket,
    straight double and single quotes, U+201D and U+2019. *)
Definition is_closer (c : N) : bool :=
  (c =? 41) || (c =? 93) || (c =? 34) || (c =? 39) || (c =? 8221) || (c =? 8217).

(** The lookahead of the pattern (closers, then whitespace; or end of
    string) applied to the text after the candidate character. *)
Fixpoint la_closers (r : pystr) : bool :=
  match r with
  | [] => false
  | c :: r' => if is_space c then true else if is_closer c then la_closers r' else false
  end.

Definition lookahead (r : pystr) : bool :=
  la_closers r || match r with [] => true | _ => false end.

(** Start offsets of the matches of the sentence-ender [re.finditer]. *)
Fixpoint enders_from (i : nat) (s : pystr) : list nat :=
  match s with
  | [] => []
  | c :: r =>
      if is_ender_char c && lookahead r then i :: enders_from (S i) r
      else enders_from (S i) r
  end.

Definition enders (s : pystr) : list nat := enders_from 0 s.

(** Python list indexing [l[i]]; [None] is an [IndexError]. *)
Definition py_index {A} (l : list A) (i : Z) : option A :=
  if (0 <=? i)%Z then l !! Z.to_nat i
  else if (0 <=? Z.of_nat (length l) + i)%Z then l !! Z.to_nat (Z.of_nat (length l) + i)
  else None.

(** [_trim_to_sentences(text, max_sentences)]; [None] models the
    [IndexError] of [enders[max_sentences - 1]]. *)
Definition trim_to_sentences (text : pystr) (max_sentences : Z) : option pystr :=
  let t := strip text in
  match t with
  | [] => Some t
  | _ =>
      let es := enders t in
      match es with
      | [] => Some t
      | _ =>
          if (Z.of_nat (length es) <=? max_sentences)%Z then Some t
          else match py_index es (max_sentences - 1)%Z with
               | Some e => Some (strip (take (S e) t))
               | None => None
               end
      end
  end.

End Trim.

(** ** JSON values and [json.loads]

    Numbers keep their lexeme.  [json_loads] is a decoder for JSON text as
    accepted by Python's [json.loads] (also [NaN], [Infinity],
    [-Infinity]); [\uXXXX] escapes give one code point each (surrogate
    pairs are not combined).  The results about [_parse_json_flexible]
    below hold for every decoder; [json_loads] is used to run them. *)
Module Json.

#[local] Set Warnings "-register-all".

Inductive json : Type :=
| JNull
| JBool (b : bool)
| JNum (lexeme : pystr)
| JStr (s : pystr)
| JArr (l : list json)
| JObj (kvs : list (pystr * json)).

(** [isinstance(data, dict) and data] *)
Definition nonempty_dict (j : json) : bool :=
  match j with JObj (_ :: _) => true | _ => false end.

Definition is_json_ws (c : N) : bool := (c =? 32) || (c =? 9) || (c =? 10) || (c =? 13).

Fixpoint skip_ws (s : pystr) : pystr :=
  match s with
  | c :: r => if is_json_ws c then skip_ws r else s
  | [] => []
  end.

Definition is_digit (c : N) : bool := (48 <=? c) && (c <=? 57).

Definition hex_val (c : N) : option N :=
  if is_digit c then Some (c - 48)
  else if (97 <=? c) && (c <=? 102) then Some (c - 87)
  else if (65 <=? c) && (c <=? 70) then Some (c - 55)
  else None.

(** String body after the opening quote; returns the decoded text and
    the rest after the closing quote. *)
Fixpoint p_string (s : pystr) (acc : pystr) : option (pystr * pystr) :=
  match s with
  | [] => None
  | 34 :: r => Some (rev acc, r)
  | 92 :: 117 :: h1 :: h2 :: h3 :: h4 :: r =>
      match hex_val h1, hex_val h2, hex_val h3, hex_val h4 with
      | Some a, Some b, Some c, Some d =>
          p_string r ((((a * 16 + b) * 16 + c) * 16 + d) :: acc)
      | _, _, _, _ => None
      end
  | 92 :: e :: r =>
      match e with
      | 34 => p_string r (34 :: acc)
      | 92 => p_string r (92 :: acc)
      | 47 => p_string r (47 :: acc)
      | 98 => p_string r (8 :: acc)
      | 102 => p_string r (12 :: acc)
      | 110 => p_string r (10 :: acc)
      | 114 => p_string r (13 :: acc)
      | 116 => p_string r (9 :: acc)
      | _ => None
      end
  | c :: r => if c <? 32 then None else p_string r (c :: acc)
  end.

Fixpoint span_digits (s : pystr) : pystr * pystr :=
  match s with
  | c :: r => if is_digit c then let '(d, r') := span_digits r in (c :: d, r') else ([], s)
  | [] => ([], [])
  end.

(** Python's number pattern: optional minus, [0] or a nonzero digit and
    digits, an optional fraction and an optional exponent. *)
Definition p_number (s : pystr) : option (pystr * pystr) :=
  let '(sign, s1) := match s with 45 :: r => ([45], r) | _ => ([], s) end in
  let ip := match s1 with
            | 48 :: r => Some ([48], r)
            | c :: _ => if is_digit c then Some (span_digits s1) else None
            | [] => None
            end in
  match ip with
  | None => None
  | Some (i, r1) =>
      let '(fr, r2) := match r1 with
                       | 46 :: r => match span_digits r with
                                    | ([], _) => ([], r1)
                                    | (d, r') => (46 :: d, r')
                                    end
                       | _ => ([], r1)
                       end in
      let ex := match r2 with
                | e :: r => if (e =? 101) || (e =? 69) then
                              let '(sg, r3) := match r with
                                               | 43 :: r' => ([43], r')
                                               | 45 :: r' => ([45], r')
                                               | _ => ([], r)
                                               end in
                              match span_digits r3 with
                              | ([], _) => None
                              | (d, r') => Some (e :: sg ++ d, r')
                              end
                            else None
                | [] => None
                end in
      match ex with
      | Some (x, r3) => Some (sign ++ i ++ fr ++ x, r3)
      | None => Some (sign ++ i ++ fr, r2)
      end
  end.

Fixpoint p_value (fuel : nat) (s : pystr) {struct fuel} : option (json * pystr) :=
  match fuel with
  | O => None
  | S f =>
      match s with
      | 34 :: r => match p_string r [] with
                   | Some (str, r') => Some (JStr str, r')
                   | None => None
                   end
      | 123 :: r => p_object f (skip_ws r)
      | 91 :: r => p_array f (skip_ws r)
      | _ =>
          if starts_with (u "null") s then Some (JNull, drop 4 s)
          else if starts_with (u "true") s then Some (JBool true, drop 4 s)
          else if starts_with (u "false") s then Some (JBool false, drop 5 s)
          else if starts_with (u "NaN") s then Some (JNum (u "NaN"), drop 3 s)
          else if starts_with (u "Infinity") s then Some (JNum (u "Infinity"), drop 8 s)
          else if starts_with (u "-Infinity") s then Some (JNum (u "-Infinity"), drop 9 s)
          else match p_number s with
               | Some (lx, r) => Some (JNum lx, r)
               | None => None
               end
      end
  end
with p_array (fuel : nat) (s : pystr) {struct fuel} : option (json * pystr) :=
  match fuel with
  | O => None
  | S f => match s with
           | 93 :: r => Some (JArr [], r)
           | _ => p_elems f [] s
           end
  end
with p_elems (fuel : nat) (acc : list json) (s : pystr) {struct fuel} : option (json * pystr) :=
  match fuel with
  | O => None
  | S f =>
      match p_value f s with
      | None => None
      | Some (v, r) =>
          match skip_ws r with
          | 93 :: r' => Some (JArr (rev (v :: acc)), r')
          | 44 :: r' => p_elems f (v :: acc) (skip_ws r')
          | _ => None
          end
      end
  end
with p_object (fuel : nat) (s : pystr) {struct fuel} : option (json * pystr) :=
  match fuel with
  | O => None
  | S f => match s with
           | 125 :: r => Some (JObj [], r)
           | 34 :: r => p_members f [] r
           | _ => None
           end
  end
with p_members (fuel : nat) (acc : list (pystr * json)) (s : pystr) {struct fuel}
  : option (json * pystr) :=
  match fuel with
  | O => None
  | S f =>
      match p_string s [] with
      | None => None
      | Some (k, r) =>
          match skip_ws r with
          | 58 :: r1 =>
              match p_value f (skip_ws r1) with
              | None => None
              | Some (v, r2) =>
                  match skip_ws r2 with
                  | 125 :: r3 => Some (JObj (rev ((k, v) :: acc)), r3)
                  | 44 :: r3 =>
                      match skip_ws r3 with
                      | 34 :: r4 => p_members f ((k, v) :: acc) r4
                      | _ => None
                      end
                  | _ => None
                  end
              end
          | _ => None
          end
      end
  end.

(** [json.loads(s)]; [None] is a raised [JSONDecodeError]. *)
Definition json_loads (s : pystr) : option json :=
  match p_value (4 * length s + 4) (skip_ws s) with
  | Some (v, r) => match skip_ws r with [] => Some v | _ => None end
  | None => None
  end.

(** [d.get(key)] on a decoded object: [json.loads] keeps the value of the
    last occurrence of a repeated key. *)
Definition dict_get (kvs : list (pystr * json)) (key : pystr) : option json :=
  match List.find (fun p => bool_decide (fst p = key)) (rev kvs) with
  | Some (_, v) => Some v
  | None => None
  end.

End Json.
Import Json.

(** ** [_parse_json_flexible] (agents/sdk.py) *)
Module Flex.

Definition fence_open : pystr := [96; 96; 96].
Definition fence_close : pystr := [10; 96; 96; 96].

(** Case-insensitive [json] (with the long s, U+017F, that folds to s). *)
Definition ci_json (s : pystr) : bool :=
  match s with
  | j :: s' :: o :: n :: _ =>
      ((j =? 106) || (j =? 74)) && ((s' =? 115) || (s' =? 83) || (s' =? 383))
      && ((o =? 111) || (o =? 79)) && ((n =? 110) || (n =? 78))
  | _ => false
  end.

(** Lazy [(.*?)\n```]: the text before the first [\n```]. *)
Fixpoint find_close (s : pystr) : option pystr :=
  match s with
  | [] => None
  | c :: r => if starts_with fence_close s then Some []
              else option_map (cons c) (find_close r)
  end.

(** [\n(.*?)\n```] at the head of [s]. *)
Definition after_nl (s : pystr) : option pystr :=
  match s with 10 :: b => find_close b | _ => None end.

(** A match of [```(?:json)?\n(.*?)\n```] starting at the head of [s]. *)
Definition fence_at (s : pystr) : option pystr :=
  if starts_with fence_open s then
    let r := drop 3 s in
    match (if ci_json r then after_nl (drop 4 r) else None) with
    | Some body => Some body
    | None => after_nl r
    end
  else None.

(** [re.search]: the leftmost match, as the captured group 1. *)
Fixpoint fence_search (s : pystr) : option pystr :=
  match s with
  | [] => None
  | _ :: r => match fence_at s with
              | Some b => Some b
              | None => fence_search r
              end
  end.

Definition direct_shape (t : pystr) : bool :=
  (starts_with [123] t && starts_with [125] (rev t))
  || (starts_with [91] t && starts_with [93] (rev t)).

Section Parse.
Variable loads : pystr -> option json.

(** (a) the body of a fenced block *)
Definition fence_stage (t : pystr) : option json :=
  match fence_search t with
  | Some body => loads (strip body)
  | None => None
  end.

(** (b) the whole text when it looks like an object or an array *)
Definition direct_stage (t : pystr) : option json :=
  if direct_shape t then loads t else None.

(** (c) the span from the first [{] to the last [}] *)
Definition brace_stage (t : pystr) : option json :=
  match find_char 123 t, rfind_char 125 t with
  | Some st, Some en => if (st <? en)%nat then loads (slice st (S en) t) else None
  | _, _ => None
  end.

Definition parse_json_flexible (text : pystr) : json :=
  match text with
  | [] => JObj []
  | _ =>
      let t := strip text in
      match fence_stage t with
      | Some v => v
      | None =>
          match direct_stage t with
          | Some v => v
          | None =>
              match brace_stage t with
              | Some v => v
              | None => JObj []
              end
          end
      end
  end.

End Parse.

End Flex.

(** ** [AgentSDK.run_json] and [AgentSDK.diagnostics] (agents/sdk.py)

    The backend is an oracle: the reply to the [n]-th call of
    [chat.completions.create] may depend on [n], on whether
    [response_format] was requested and on the user message.  A reply is
    either a raised exception (network error, timeout, unsupported
    parameter, ...) or the message content (the empty text also stands for
    [None] and for an empty [choices]).  Python exceptions inside [run_json] are the
    [inl] results of a state and exception monad. *)
Module SDK.

Inductive reply : Type :=
| RRaise (msg : pystr)
| RContent (content : pystr).

(** [self._client] / [self._agents]: no client, chat client only, or chat
    client with the agents wrapper. *)
Inductive client_mode : Type := NoClient | ChatOnly | WithAgents.

Record sdk_state : Type := mkState {
  calls : nat;
  last_error : option pystr;
  last_raw : option pystr
}.

Definition M (A : Type) : Type := sdk_state -> (pystr + A) * sdk_state.

Definition ret {A} (a : A) : M A := fun s => (inr a, s).
Definition bind {A B} (m : M A) (k : A -> M B) : M B :=
  fun s => match m s with
           | (inl e, s') => (inl e, s')
           | (inr a, s') => k a s'
           end.
Definition raise {A} (e : pystr) : M A := fun s => (inl e, s).
(** [try: m except Exception as e: h(e)] *)
Definition catch {A} (m : M A) (h : pystr -> M A) : M A :=
  fun s => match m s with
           | (inl e, s') => h e s'
           | (inr a, s') => (inr a, s')
           end.

Global Instance M_ret : MRet M := @ret.
Global Instance M_bind : MBind M := fun A B k m => bind m k.

Definition set_raw (c : pystr) : M unit :=
  fun s => (inr tt, mkState (calls s) (last_error s) (Some c)).
Definition set_error (e : pystr) : M unit :=
  fun s => (inr tt, mkState (calls s) (Some e) (last_raw s)).

Section Run.
Variable backend : nat -> bool -> pystr -> reply.
Variable loads : pystr -> option json.

(** [client.chat.completions.create] with the request arguments; [fmt] says whether
    a [response_format] of type [json_object] is passed. *)
Definition create (fmt : bool) (user : pystr) : M pystr :=
  fun s =>
    let s' := mkState (S (calls s)) (last_error s) (last_raw s) in
    match backend (calls s) fmt user with
    | RRaise e => (inl e, s')
    | RContent c => (inr c, s')
    end.

Definition json_loads_m (c : pystr) : M json :=
  match loads c with
  | Some v => ret v
  | None => raise (u "JSONDecodeError")
  end.

(** The fallback without [response_format]: [Some d] is a [return d]. *)
Definition fallback_call (user : pystr) : M (option json) :=
  c ← create false user ;
  set_raw c ;;
  let d := Flex.parse_json_flexible loads c in
  ret (if nonempty_dict d then Some d else None).

(** The agents branch of [run_json]; [None] means it fell through. *)
Definition agents_path (user : pystr) : M (option json) :=
  catch
    (catch
       (c ← create true user ;
        set_raw c ;;
        match c with
        | [] => ret (Some (JObj []))
        | _ => v ← json_loads_m c ; ret (Some v)
        end)
       (fun e1 =>
          set_error (u "agents json_format unsupported, fallback: " ++ e1) ;;
          fallback_call user))
    (fun e => set_error (u "agents/chat path error: " ++ e) ;; ret None).

(** One iteration of the chat-completions loop. *)
Definition chat_attempt (user : pystr) : M (option json) :=
  catch
    (catch
       (c ← create true user ;
        set_raw c ;;
        match strip c with
        | [] => ret None
        | _ => v ← json_loads_m c ; ret (Some v)
        end)
       (fun e1 =>
          set_error (u "chat json_format unsupported, fallback: " ++ e1) ;;
          fallback_call user))
    (fun e => set_error (u "chat path error: " ++ e) ;; ret None).

(** The instruction appended to [user] after a failed iteration. *)
Definition retry_suffix (schema_hint : option pystr) : pystr :=
  [10; 10] ++ u "Return ONLY valid JSON object with no surrounding prose."
  ++ match schema_hint with
     | Some (_ :: _ as h) => u " Schema: " ++ h
     | _ => []
     end.

Fixpoint chat_loop (k : nat) (user : pystr) (schema_hint : option pystr) : M (option json) :=
  match k with
  | O => ret None
  | S k' =>
      r ← chat_attempt user ;
      match r with
      | Some v => ret (Some v)
      | None => chat_loop k' (user ++ retry_suffix schema_hint) schema_hint
      end
  end.

Definition run_json (md : client_mode) (user : pystr) (schema_hint : option pystr)
  (attempts : Z) : M json :=
  r ← (match md with WithAgents => agents_path user | _ => ret None end) ;
  match r with
  | Some v => ret v
  | None =>
      match md with
      | NoClient => ret (JObj [])
      | _ =>
          r' ← chat_loop (Z.to_nat (Z.max 1 attempts)) user schema_hint ;
          ret (match r' with Some v => v | None => JObj [] end)
      end
  end.

End Run.

(** [diagnostics()]: the last error and the first 200 characters of the
    last raw reply followed by the (mis-encoded) ellipsis of the source. *)
Definition diagnostics (s : sdk_state) : option pystr * option pystr :=
  (last_error s,
   match last_raw s with
   | Some ((_ :: _) as r) => Some (take 200 r ++ [226; 8364; 166])
   | _ => None
   end).

End SDK.

Module SDKInputs.
Import SDK.

(** A fresh client: no call made, no error, no raw reply. *)
Definition s0 : sdk_state := mkState 0 None None.

(** The first request fails (e.g. [response_format] rejected); every later
    request is answered with an empty message. *)
Definition backend_raise_then_empty (n : nat) (fmt : bool) (user : pystr) : reply :=
  match n with
  | O => RRaise (u "unsupported response_format")
  | _ => RContent []
  end.

(** Every request is answered with the JSON array [1]. *)
Definition backend_list_reply (n : nat) (fmt : bool) (user : pystr) : reply :=
  RContent (u "[1]").

(** Every request is answered with the empty JSON array. *)
Definition backend_empty_list_reply (n : nat) (fmt : bool) (user : pystr) : reply :=
  RContent (u "[]").

(** Every request raises; the message may depend on the call number. *)
Definition raising_backend (msg : nat -> pystr) (n : nat) (fmt : bool) (user : pystr) : reply :=
  RRaise (msg n).

(** Every request is answered; the content may depend on the call number. *)
Definition content_backend (b : nat -> pystr) (n : nat) (fmt : bool) (user : pystr) : reply :=
  RContent (b n).

End SDKInputs.

Module Incident.

(** A segment of [all_segments], as built by [VectorIndex.add_transcript]. *)
Record segment : Type := mkSeg {
  seg_transcript : pystr;
  seg_number : Z;
  seg_text : pystr
}.

(** An incident note, after [_normalize_incident_notes]; its labels are
    already passed through [str]. *)
Record note : Type := mkNote {
  note_transcript : pystr;
  note_segment_number : Z;
  note_labels : list pystr;
  note_memo : pystr
}.

(** An entry of [prior_incident_context]. *)
Record prior_entry : Type := mkPrior {
  pr_label : pystr;
  pr_transcript : pystr;
  pr_segment_number : Z;
  pr_memo : pystr
}.

(** [_segment_key] on a segment and on a note. *)
Definition seg_key (s : segment) : pystr * Z := (seg_transcript s, seg_number s).
Definition note_key (n : note) : pystr * Z := (note_transcript n, note_segment_number n).

(** Python's [l[-n:]]. *)
Definition py_tail {A} (n : nat) (l : list A) : list A := drop (length l - n) l.

(** Python truthiness of a string or list. *)
Definition null {A} (l : list A) : bool := match l with [] => true | _ => false end.

(** [_has_labels]. *)
Definition has_labels (notes : list note) : bool :=
  existsb (fun n => existsb (fun l => negb (null (strip l))) (note_labels n)) notes.

(** The labels loop: [str(lbl).strip()], kept when non-empty. *)
Definition clean_labels (ls : list pystr) : list pystr :=
  List.filter (fun l => negb (null l)) (map strip ls).

(** The note after the transcript and segment number of [seg_info] are written
    into it and its labels are cleaned. *)
Definition clean_note (seg : segment) (n : note) : note :=
  mkNote (seg_transcript seg) (seg_number seg) (clean_labels (note_labels n)) (note_memo n).

Abbreviation incident_map := (gmap (pystr * Z) note).

(** One iteration of [for note in notes]: the merge rule
    [if key not in incident_map or not incident_map[key].get(labels)], then
    every label appended to the prior context. *)
Definition merge_note (seg : segment) (acc : incident_map * list prior_entry) (n : note)
  : incident_map * list prior_entry :=
  let n' := clean_note seg n in
  let key := note_key n' in
  let M := fst acc in
  let M' := match M !! key with
            | Some old => match note_labels old with
                          | [] => <[key := n']> M
                          | _ => M
                          end
            | None => <[key := n']> M
            end in
  (M', snd acc ++ map (fun l => mkPrior l (note_transcript n') (note_segment_number n') (note_memo n'))
                      (note_labels n')).

Record istate : Type := mkI {
  imap : incident_map;
  prior : list prior_entry;
  windows : list (list prior_entry)   (* the [prior_incidents] of every call so far *)
}.

Definition istate0 : istate := mkI ∅ [] [].

Section Loop.
(** [_normalize_incident_notes(run_incident_coding(...))] for the [n]-th call of
    the coder, on a chunk of one segment and the given prior incidents. *)
Variable run_incident_coding : nat -> segment -> list prior_entry -> list note.

Definition incident_call (st : istate) (seg : segment) : list note * istate :=
  let w := py_tail 20 (prior st) in
  (run_incident_coding (length (windows st)) seg w,
   mkI (imap st) (prior st) (windows st ++ [w])).

(** The body of [for idx, chunk in enumerate(chunks)] with [chunk_size = 1]:
    up to two calls, [continue] on no notes, the merge, then the cap of 60. *)
Definition process_segment (st : istate) (seg : segment) : istate :=
  let '(n1, st1) := incident_call st seg in
  let '(notes, st2) := if negb (null n1) && has_labels n1 then (n1, st1)
                       else incident_call st1 seg in
  match notes with
  | [] => st2
  | _ =>
      let '(M, P) := fold_left (merge_note seg) notes (imap st2, prior st2) in
      mkI M (if (60 <? length P)%nat then py_tail 60 P else P) (windows st2)
  end.

Definition incident_loop (segs : list segment) : istate :=
  fold_left process_segment segs istate0.

End Loop.

(** [incident_records = [incident_map[key] for key in ordered_keys if key in incident_map]]. *)
Definition order_records (all_segments : list segment) (M : incident_map) : list note :=
  omap (fun k => M !! k) (map seg_key all_segments).

(** The incident artifact of one coder. *)
Definition incident_stage (run_incident_coding : nat -> segment -> list prior_entry -> list note)
  (all_segments : list segment) : list note :=
  order_records all_segments (imap (incident_loop run_incident_coding all_segments)).

End Incident.

Module IncidentInputs.
Import Incident.

Definition seg_a : segment := mkSeg (u "a.txt") 1 (u "First segment.").
Definition seg_b : segment := mkSeg (u "a.txt") 2 (u "Second segment.").

(** A service that answers every segment with one labelled note carrying a
    wrong transcript and segment number (they are overwritten). *)
Definition label_every_segment (n : nat) (seg : segment) (w : list prior_entry) : list note :=
  [mkNote (u "other.txt") 0 [u " routine "] (u "memo")].

End IncidentInputs.

Module Quotes.
Import Trim.

(** A row of [data.get(quotes_by_category)]: [int(row.get(index, -1))] and
    the list [str(q)] of its quotes. *)
Definition quote_row : Type := (Z * list pystr)%type.

Definition nonblank (q : pystr) : bool := negb (Incident.null q).

(** The dict comprehension [by_cat]: a later row with the same index wins. *)
Definition by_cat_step (m : gmap Z (list pystr)) (r : quote_row) : gmap Z (list pystr) :=
  <[fst r := List.filter nonblank (map strip (snd r))]> m.

Definition by_cat (rows : list quote_row) : gmap Z (list pystr) :=
  fold_left by_cat_step rows ∅.

(** [cat[supporting_quotes]] for the category at [idx]; [None] would be an
    exception of [_trim_to_sentences]. *)
Definition supporting_quotes (bc : gmap Z (list pystr)) (idx : Z) : option (list pystr) :=
  let qlist := take 3 (default [] (bc !! idx)) in
  trimmed ← mapM (fun q => trim_to_sentences q 3) qlist ;
  Some (List.filter (fun q => nonblank q && nonblank (strip q)) trimmed).

(** The quote stage for [ncats] categories: the retrieved [contexts] of each
    category reach the result only through the service's reply [rows]. *)
Definition quote_stage (contexts : list (list pystr))
  (service : list (list pystr) -> list quote_row) (ncats : nat) : option (list (list pystr)) :=
  let rows := service contexts in
  let bc := by_cat rows in
  mapM (fun idx => supporting_quotes bc (Z.of_nat idx)) (seq 0 ncats).

(** A service that returns a quote found in no context. *)
Definition service_unsupported_quote (contexts : list (list pystr)) : list quote_row :=
  [(0%Z, [u "zzz"])].

End Quotes.

(** ** [synthesize_incident_patterns] (agents/synth_agent.py) *)
Module Synth.
Import Incident.

(** An entry of [flat]. *)
Record flat_row : Type := mkRow {
  row_label : pystr;
  row_transcript : pystr;
  row_segment_number : Z;
  row_memo : pystr
}.

(** The three nested loops building [flat]. *)
Definition flatten (per_coder_incidents : list (list note)) : list flat_row :=
  concat (map (fun coder_list =>
    concat (map (fun n =>
      map (fun l => mkRow l (note_transcript n) (note_segment_number n) (note_memo n))
          (note_labels n)) coder_list)) per_coder_incidents).

Record pattern : Type := mkPattern {
  pat_label : pystr;
  representative_segments : list pystr;
  comparative_note : pystr
}.

Section Fallback.
(** [str.lower()]. *)
Variable py_lower : pystr -> pystr.

(** [row.get(label).strip().lower()] *)
Definition row_key (r : flat_row) : pystr := py_lower (strip (row_label r)).

(** [f"{transcript}#{segment_number}"] *)
Definition seg_ref (r : flat_row) : pystr :=
  row_transcript r ++ [35] ++ str_of_Z (row_segment_number r).

(** [if seg not in entry[representative_segments]: append] *)
Definition add_seg (seg : pystr) (p : pattern) : pattern :=
  if decide (seg ∈ representative_segments p) then p
  else mkPattern (pat_label p) (representative_segments p ++ [seg]) (comparative_note p).

(** [seen.setdefault(key, fresh)] followed by [add_seg] on the entry; [seen]
    is an association list in insertion order. *)
Fixpoint setdefault_add (key : pystr) (fresh : pattern) (seg : pystr)
  (seen : list (pystr * pattern)) : list (pystr * pattern) :=
  match seen with
  | [] => [(key, add_seg seg fresh)]
  | (k, p) :: rest =>
      if decide (k = key) then (k, add_seg seg p) :: rest
      else (k, p) :: setdefault_add key fresh seg rest
  end.

Definition dedupe_step (seen : list (pystr * pattern)) (r : flat_row) : list (pystr * pattern) :=
  match row_key r with
  | [] => seen
  | key => setdefault_add key (mkPattern (row_label r) [] (row_memo r)) (seg_ref r) seen
  end.

(** The fallback: [list(seen.values())]. *)
Definition dedupe_labels (flat : list flat_row) : list pattern :=
  map snd (fold_left dedupe_step flat []).

(** [bool(x)] of the [int] or [float] that [json.loads] makes of a number
    lexeme (false exactly for a zero value). *)
Variable num_truthy : pystr -> bool.

(** Python truthiness of a decoded JSON value. *)
Definition py_truthy (v : json) : bool :=
  match v with
  | JNull => false
  | JBool b => b
  | JNum l => num_truthy l
  | JStr t => negb (null t)
  | JArr l => negb (null l)
  | JObj kvs => negb (null kvs)
  end.

(** From [data = sdk.run_json(...)] on: [data.get(incident_patterns) or []]
    ([AttributeError] when [data] is not a dict), then the fallback when
    the result is falsy.  [inl] is a raised exception; [inr (inl v)] returns
    the service's value [v], [inr (inr ps)] the fallback patterns. *)
Definition synthesize_incident_patterns (data : json)
  (per_coder_incidents : list (list note)) : pystr + (json + list pattern) :=
  match data with
  | JObj kvs =>
      match dict_get kvs (u "incident_patterns") with
      | Some v => if py_truthy v then inr (inl v)
                  else inr (inr (dedupe_labels (flatten per_coder_incidents)))
      | None => inr (inr (dedupe_labels (flatten per_coder_incidents)))
      end
  | _ => inl (u "AttributeError")
  end.

(** The key of a pattern's label, and the distinct keys of one coder's labels. *)
Definition pattern_key (p : pattern) : pystr := py_lower (strip (pat_label p)).

Definition coder_keys (coder_list : list note) : list pystr :=
  remove_dups (List.filter (fun k => negb (null k))
    (map (fun l => py_lower (strip l)) (concat (map note_labels coder_list)))).

End Fallback.

End Synth.

(** ** The coder count of [run_job] *)
Module Coders.

Section Int.
(** [int(x)] of the [float] that [json.loads] makes of a number lexeme with
    a fraction or an exponent ([OverflowError] for an infinite value). *)
Variable int_of_float : pystr -> pystr + Z.
(** [int(s)] of a string ([ValueError] when it is not an integer literal). *)
Variable int_of_str : pystr -> pystr + Z.

(** Value of a string of decimal digits, accumulated from the left. *)
Fixpoint dec_val (s : pystr) (acc : Z) : Z :=
  match s with
  | [] => acc
  | d :: r => dec_val r (acc * 10 + Z.of_N (d - 48))
  end.

(** [json.loads] makes an [int] of a number lexeme without [.], [e] or [E]. *)
Definition is_int_lexeme (l : pystr) : bool :=
  negb (existsb (fun c => (c =? 46) || (c =? 101) || (c =? 69)) l).

Definition int_lexeme_val (l : pystr) : Z :=
  match l with
  | c :: r => if c =? 45 then (- dec_val r 0)%Z else dec_val l 0
  | [] => dec_val l 0
  end.

(** [int(v)] of a decoded JSON value ([bool] is a subclass of [int]). *)
Definition py_int (v : json) : pystr + Z :=
  match v with
  | JNull => inl (u "TypeError")
  | JBool b => inr (if b then 1%Z else 0%Z)
  | JNum l => if is_int_lexeme l then inr (int_lexeme_val l) else int_of_float l
  | JStr t => int_of_str t
  | JArr _ | JObj _ => inl (u "TypeError")
  end.

(** [coders = int(params.get(coders, 1)); coders = max(1, min(2, coders))]
    on the decoded [params.json], outside any [try]: [inl] is the raised
    exception ([AttributeError] when [params] is not a dict). *)
Definition run_job_coders (params : json) : pystr + Z :=
  match params with
  | JObj kvs =>
      match (match dict_get kvs (u "coders") with
             | None => inr 1%Z
             | Some v => py_int v
             end) with
      | inl e => inl e
      | inr c => inr (Z.max 1 (Z.min 2 c))
      end
  | _ => inl (u "AttributeError")
  end.

End Int.

(** The coder ids [range(1, coders + 1)] of the pass loop. *)
Definition coder_passes (coders : Z) : list Z :=
  map Z.of_nat (seq 1 (Z.to_nat coders)).

End Coders.

(** ** [_enforce_word_limit] (app.py) and [_limit_tokens] (agents/coder_agent.py)

    Both functions have the same body. *)
Module WordLimit.

(** End offsets of the matches of [re.finditer(r"\S+", text)], scanning from
    offset [i]; [in_word] says whether a match is open. *)
Fixpoint word_ends (i : nat) (in_word : bool) (s : pystr) : list nat :=
  match s with
  | [] => if in_word then [i] else []
  | c :: r =>
      if is_space c then
        (if in_word then i :: word_ends (S i) false r else word_ends (S i) false r)
      else word_ends (S i) true r
  end.

Definition words (s : pystr) : list nat := word_ends 0 false s.

Definition enforce_word_limit (text : pystr) (limit : Z) : pystr :=
  if (limit <=? 0)%Z then text
  else
    let ends := words text in
    if (Z.of_nat (length ends) <=? limit)%Z then text
    else match ends !! Z.to_nat (limit - 1) with
         | Some cutoff => rstrip (take cutoff text)
         | None => text
         end.

End WordLimit.

(** ** [_iter_chunks] (worker.py, nested in [run_job]) *)
Module Chunks.

(** [range(start, stop, step)] for a positive step. *)
Fixpoint range_step (fuel : nat) (start stop step : nat) : list nat :=
  match fuel with
  | O => []
  | S f => if (start <? stop)%nat then start :: range_step f (start + step) stop step else []
  end.

Definition iter_chunks {A} (items : list A) (size : Z) : list (list A) :=
  if (size <=? 0)%Z then [items]
  else
    let n := Z.to_nat size in
    map (fun i => take n (drop i items)) (range_step (length items) 0 (length items) n).

End Chunks.

(** ** [_sanitize_tier], [_sanitize_concurrency] and [concurrency_for_tier] (config.py)

    [py_int] is Python's [int()] on a string, [None] when it raises. *)
Module Config.

(** [TIER_CONCURRENCY_PRESET[t]] as (summary, open); [None] is a [KeyError]. *)
Definition tier_preset (t : Z) : option (Z * Z) :=
  match t with
  | 1%Z => Some (2, 12)%Z
  | 2%Z => Some (20, 120)%Z
  | 3%Z => Some (40, 250)%Z
  | 4%Z => Some (100, 600)%Z
  | 5%Z => Some (1800, 9000)%Z
  | _ => None
  end.

(** [_sanitize_tier] on an [int] ([int(value)] of an int does not raise). *)
Definition sanitize_tier (value : Z) : Z :=
  match tier_preset value with Some _ => value | None => 1%Z end.

Section Env.
Variable py_int : pystr -> option Z.

Definition sanitize_concurrency (value : option pystr) (fallback : Z) : Z :=
  match value with
  | None => fallback
  | Some v => match py_int v with
              | Some parsed => if (0 <? parsed)%Z then parsed else fallback
              | None => fallback
              end
  end.

(** [concurrency_for_tier(tier)] with [DEFAULT_API_TIER] and the values of
    [GT_SUMMARY_CONCURRENCY] and [GT_OPEN_CODING_CONCURRENCY]; the result is
    (tier, summary, open), [None] for a raised [KeyError]. *)
Definition concurrency_for_tier (default_api_tier : Z) (env_summary env_open : option pystr)
  (tier : option Z) : option (Z * Z * Z) :=
  let resolved_tier := sanitize_tier (match tier with Some t => t | None => default_api_tier end) in
  match tier_preset resolved_tier with
  | None => None
  | Some (bs, bo) =>
      Some (resolved_tier, sanitize_concurrency env_summary bs, sanitize_concurrency env_open bo)
  end.

End Env.

End Config.

(** ** Form handling of [start] (app.py)

    [py_int] is [int()] on a string ([None] when it raises) and [isalnum] is
    [str.isalnum] on one code point.  The upload name is built from
    [Path(file.filename).stem] and [.suffix], taken as given. *)
Module App.
Import WordLimit.

Section Form.
Variable py_int : pystr -> option Z.
Variable isalnum : N -> bool.

(** [_safe_int]: [int(v) if v else default], [default] when [int] raises. *)
Definition safe_int (v : option pystr) (default : Z) : Z :=
  match v with
  | Some ((_ :: _) as s) => match py_int s with Some z => z | None => default end
  | _ => default
  end.

Definition SEGMENT_LENGTH_OPTIONS : list Z := [500; 1000; 2000; 3000; 4000; 5000]%Z.

Record start_params : Type := mkParams {
  p_study_background : pystr;
  p_coders : Z;
  p_theoretical_framework : pystr;
  p_auto_categories : bool;
  p_max_categories : Z;
  p_segment_length : Z
}.

(** The text inputs and [params] of [start], from [request.form.get]. *)
Definition start_params_of (form : pystr -> option pystr) : start_params :=
  let get k d := match form k with Some v => v | None => d end in
  let study_background := enforce_word_limit (strip (get (u "study_background") [])) 1000 in
  let coders := Z.max 1 (Z.min 2 (safe_int (Some (get (u "coders") (u "1"))) 1)) in
  let theoretical_framework :=
    enforce_word_limit (strip (get (u "theoretical_framework") [])) 1000 in
  let auto_categories := bool_decide (form (u "auto_categories") = Some (u "on")) in
  let max_categories := if auto_categories then 0%Z else safe_int (form (u "max_categories")) 0 in
  let segment_len0 := safe_int (form (u "segment_length")) 1000 in
  let segment_len := if existsb (Z.eqb segment_len0) SEGMENT_LENGTH_OPTIONS
                     then segment_len0 else 1000%Z in
  mkParams study_background coders theoretical_framework auto_categories max_categories segment_len.

(** [ch if ch.isalnum() or ch in ("-", "_", ".") else "-"] *)
Definition sanitize_char (c : N) : N :=
  if isalnum c || (c =? 45) || (c =? 95) || (c =? 46) then c else 45.

Fixpoint lstrip_dash (s : pystr) : pystr :=
  match s with
  | [] => []
  | c :: r => if c =? 45 then lstrip_dash r else s
  end.

(** [str.strip("-")] *)
Definition strip_dash (s : pystr) : pystr := rev (lstrip_dash (rev (lstrip_dash s))).

(** [safe = "".join(...).strip("-") or "file"] *)
Definition safe_stem (stem : pystr) : pystr :=
  match strip_dash (map sanitize_char stem) with
  | [] => u "file"
  | r => r
  end.

Definition allowed_exts : list pystr := [u ".txt"; u ".pdf"; u ".docx"].

(** The name under which an upload is stored, [None] when it is skipped. *)
Definition upload_name (stem suffix : pystr) : option pystr :=
  let ext := lower suffix in
  if bool_decide (ext ∈ allowed_exts) then Some (safe_stem stem ++ ext) else None.

(** [uploads]: the stored names of the uploads with a non-empty filename,
    given as (stem, suffix). *)
Definition uploads_of (files : list (pystr * pystr)) : list pystr :=
  omap (fun f => upload_name (fst f) (snd f)) files.

End Form.

(** [str.isalnum] on ASCII letters and digits (for examples). *)
Definition ascii_isalnum (c : N) : bool :=
  ((48 <=? c) && (c <=? 57)) || ((65 <=? c) && (c <=? 90)) || ((97 <=? c) && (c <=? 122)).

End App.

(** ** [build_segment_maps] (agents/tools.py) *)
Module SegMaps.
Import Incident.

Abbreviation by_key_map := (gmap (pystr * Z) (pystr * pystr)).
Abbreviation per_tx_map := (gmap pystr (gmap pystr pystr)).

(** One iteration: [by_key[(t, n)] = {raw, ivw}] with both fields the text,
    and [per_tx.setdefault(t, {})[str(n)] = raw]. *)
Definition build_step (acc : by_key_map * per_tx_map) (s : segment) : by_key_map * per_tx_map :=
  let t := seg_transcript s in
  let n := seg_number s in
  let raw := seg_text s in
  (<[(t, n) := (raw, raw)]> (fst acc),
   <[t := <[str_of_Z n := raw]> (default ∅ (snd acc !! t))]> (snd acc)).

Definition build_segment_maps (segments : list segment) : by_key_map * per_tx_map :=
  fold_left build_step segments (∅, ∅).

(** The last segment satisfying [p] (for stating results). *)
Definition last_such (p : segment -> bool) (segs : list segment) : option segment :=
  fold_left (fun acc s => if p s then Some s else acc) segs None.

End SegMaps.

(** * Proofs *)

(** Lemmas about the string helpers. *)
Module PyStrFacts.

Definition head_ok (s : pystr) : Prop :=
  forall c r, s = c :: r -> is_space c = false.
Definition last_ok (s : pystr) : Prop :=
  forall c r, s = r ++ [c] -> is_space c = false.

Lemma lstrip_head_ok s : head_ok (lstrip s).
Proof.
  induction s as [|c r IH]; simpl; intros c' r' E; [discriminate|].
  destruct (is_space c) eqn:Hc; [apply (IH c' r' E)|]. injection E as -> ->. exact Hc.
Qed.

Lemma lstrip_id s : head_ok s -> lstrip s = s.
Proof.
  destruct s as [|c r]; [reflexivity|]. intros H. simpl. rewrite (H c r eq_refl). reflexivity.
Qed.

Lemma lstrip_app l m :
  lstrip (l ++ m) = match lstrip l with [] => lstrip m | _ => lstrip l ++ m end.
Proof.
  induction l as [|c r IH]; simpl; [reflexivity|].
  destruct (is_space c); [exact IH|reflexivity].
Qed.

Lemma lstrip_suffix s : exists k, s = k ++ lstrip s.
Proof.
  induction s as [|c r [k Hk]]; simpl; [exists []; reflexivity|].
  destruct (is_space c); [exists (c :: k); simpl; rewrite <- Hk; reflexivity|].
  exists []; reflexivity.
Qed.

Lemma rstrip_prefix s : exists k, s = rstrip s ++ k.
Proof.
  destruct (lstrip_suffix (rev s)) as [k Hk]. exists (rev k). unfold rstrip.
  rewrite <- rev_app_distr, <- Hk, rev_involutive. reflexivity.
Qed.

Lemma rstrip_last_ok s : last_ok (rstrip s).
Proof.
  intros c r E. unfold rstrip in E.
  apply (f_equal (@rev N)) in E. rewrite rev_involutive, rev_app_distr in E.
  simpl in E. exact (lstrip_head_ok (rev s) c (rev r) E).
Qed.

Lemma rstrip_id s : last_ok s -> rstrip s = s.
Proof.
  intros H. destruct s as [|c r] using rev_ind; [reflexivity|].
  unfold rstrip. rewrite rev_app_distr. simpl.
  rewrite (H c r eq_refl). simpl. rewrite rev_involutive. reflexivity.
Qed.

Lemma rstrip_head_ok s : head_ok s -> head_ok (rstrip s).
Proof.
  intros H c' r' E. destruct s as [|c r]; [discriminate|].
  pose proof (H c r eq_refl) as Hc.
  assert (Hs : lstrip [c] = [c]) by (simpl; rewrite Hc; reflexivity).
  unfold rstrip in E. change (rev (c :: r)) with (rev r ++ [c]) in E.
  rewrite lstrip_app, Hs in E.
  destruct (lstrip (rev r)) as [|x y]; simpl in E.
  - injection E as Ec Er. subst. exact Hc.
  - rewrite rev_app_distr in E. simpl in E. injection E as Ec Er. subst. exact Hc.
Qed.

Lemma strip_id s : head_ok s -> last_ok s -> strip s = s.
Proof. intros H1 H2. unfold strip. rewrite lstrip_id by exact H1. apply rstrip_id, H2. Qed.

Lemma strip_head_ok s : head_ok (strip s).
Proof. apply rstrip_head_ok, lstrip_head_ok. Qed.

Lemma strip_last_ok s : last_ok (strip s).
Proof. apply rstrip_last_ok. Qed.

Lemma strip_idem s : strip (strip s) = strip s.
Proof. apply strip_id; [apply strip_head_ok|apply strip_last_ok]. Qed.

Lemma strip_substring s : substring_of (strip s) s.
Proof.
  destruct (lstrip_suffix s) as [k1 H1]. destruct (rstrip_prefix (lstrip s)) as [k2 H2].
  exists k1, k2. unfold strip. rewrite <- H2. exact H1.
Qed.

Lemma substring_trans a b c : substring_of a b -> substring_of b c -> substring_of a c.
Proof.
  intros [k1 [k2 ->]] [m1 [m2 ->]]. exists (m1 ++ k1), (k2 ++ m2).
  rewrite <- !app_assoc. reflexivity.
Qed.

Lemma substring_refl a : substring_of a a.
Proof. exists [], []. rewrite app_nil_r. reflexivity. Qed.

Lemma take_substring n s : substring_of (take n s) s.
Proof. exists [], (drop n s). simpl. symmetry. apply take_drop. Qed.

End PyStrFacts.

Module TrimFacts.
Import Trim PyStrFacts.

Lemma ender_char_cases c :
  is_ender_char c = true -> is_space c = false /\ is_closer c = false.
Proof.
  unfold is_ender_char. intros H.
  repeat (apply orb_true_iff in H; destruct H as [H|H]);
    apply N.eqb_eq in H; subst; split; reflexivity.
Qed.

Lemma la_closers_app x c s :
  is_space c = false -> is_closer c = false ->
  la_closers (x ++ c :: s) = la_closers (x ++ [c]).
Proof.
  intros Hs Hc. induction x as [|a x IH]; simpl.
  - rewrite Hs, Hc. reflexivity.
  - rewrite IH. reflexivity.
Qed.

Lemma enders_split i x c s :
  is_ender_char c = true -> lookahead s = true ->
  enders_from i (x ++ c :: s)
  = enders_from i (x ++ [c]) ++ enders_from (i + length x + 1) s.
Proof.
  intros He Hl. destruct (ender_char_cases c He) as [Hs Hc].
  revert i. induction x as [|a x IH]; intros i; simpl.
  - rewrite He, Hl. simpl. rewrite Nat.add_0_r, Nat.add_1_r. reflexivity.
  - replace (i + S (length x) + 1)%nat with (S i + length x + 1)%nat by lia.
    assert (Hla : lookahead (x ++ c :: s) = lookahead (x ++ [c])).
    { unfold lookahead. rewrite (la_closers_app x c s Hs Hc). destruct x; reflexivity. }
    rewrite Hla. destruct (is_ender_char a && lookahead (x ++ [c]));
      rewrite IH; reflexivity.
Qed.

Lemma enders_from_bounds i s x :
  x ∈ enders_from i s -> (i <= x < i + length s)%nat.
Proof.
  revert i. induction s as [|c r IH]; intros i; simpl; [intros H; inversion H|].
  destruct (is_ender_char c && lookahead r).
  - intros H. apply elem_of_cons in H as [->|H]; [lia|]. apply IH in H. lia.
  - intros H. apply IH in H. lia.
Qed.

Lemma enders_from_sorted i s : StronglySorted lt (enders_from i s).
Proof.
  revert i. induction s as [|c r IH]; intros i; simpl; [constructor|].
  destruct (is_ender_char c && lookahead r); [|apply IH].
  constructor; [apply IH|]. apply Forall_forall. intros x Hx.
  apply enders_from_bounds in Hx. lia.
Qed.

Lemma enders_from_char i s e :
  e ∈ enders_from i s ->
  exists c, s !! (e - i)%nat = Some c /\ is_ender_char c = true
            /\ lookahead (drop (S (e - i)) s) = true.
Proof.
  revert i. induction s as [|c r IH]; intros i; simpl; [intros H; inversion H|].
  destruct (is_ender_char c && lookahead r) eqn:Hc.
  - intros H. apply elem_of_cons in H as [->|H].
    + apply andb_true_iff in Hc as [H1 H2]. exists c.
      rewrite Nat.sub_diag. simpl. auto.
    + pose proof (enders_from_bounds _ _ _ H).
      destruct (IH _ H) as [c' [H1 [H2 H3]]]. exists c'.
      replace (e - i)%nat with (S (e - S i)) by lia. simpl. auto.
  - intros H. pose proof (enders_from_bounds _ _ _ H).
    destruct (IH _ H) as [c' [H1 [H2 H3]]]. exists c'.
    replace (e - i)%nat with (S (e - S i)) by lia. simpl. auto.
Qed.

Lemma sorted_lookup_lt (l : list nat) i j a b :
  StronglySorted lt l -> l !! i = Some a -> l !! j = Some b -> (i < j)%nat -> (a < b)%nat.
Proof.
  revert i j. induction l as [|x l IH]; intros i j Hs Ha Hb Hij; [discriminate|].
  inversion Hs as [|? ? Hs' Hf]; subst.
  destruct i as [|i], j as [|j]; simpl in *; try lia.
  - injection Ha as <-. rewrite Forall_forall in Hf. apply Hf.
    eapply list_elem_of_lookup_2; eauto.
  - eapply IH; eauto. lia.
Qed.

Lemma last_ok_snoc x c : is_space c = false -> last_ok (x ++ [c]).
Proof. intros Hc c' r E. apply app_inj_tail in E as [_ <-]. exact Hc. Qed.

Lemma head_ok_take n s : head_ok s -> head_ok (take n s).
Proof.
  intros H c r E. destruct n; [discriminate|]. destruct s as [|a s]; [discriminate|].
  simpl in E. injection E as <- _. apply (H a s eq_refl).
Qed.

(** The cut branch: the kept prefix ends at the chosen ender and carries
    at most [S n] enders. *)
Lemma cut_prefix t n e :
  head_ok t -> enders t !! n = Some e ->
  strip (take (S e) t) = take (S e) t /\ (length (enders (take (S e) t)) <= S n)%nat.
Proof.
  intros Hh Hn.
  assert (He : e ∈ enders t) by (eapply list_elem_of_lookup_2; eauto).
  destruct (enders_from_char 0 t e He) as [c [Hc [Hec Hla]]].
  rewrite Nat.sub_0_r in Hc, Hla.
  pose proof (take_drop_middle t e c Hc) as Ht.
  assert (Hlen : length (take e t) = e).
  { apply length_take_le. apply lookup_lt_Some in Hc. lia. }
  rewrite (take_S_r t e c Hc).
  destruct (ender_char_cases c Hec) as [Hsp _].
  split.
  - apply strip_id; [|apply last_ok_snoc, Hsp].
    rewrite <- (take_S_r t e c Hc). apply head_ok_take, Hh.
  - pose proof (enders_split 0 (take e t) c (drop (S e) t) Hec Hla) as Hs.
    rewrite Ht, Hlen in Hs. unfold enders in *.
    destruct (decide (length (enders_from 0 (take e t ++ [c])) <= S n)%nat) as [|Hgt];
      [assumption|exfalso].
    destruct (lookup_lt_is_Some_2 (enders_from 0 (take e t ++ [c])) (S n)) as [y Hy]; [lia|].
    assert (Hy' : enders_from 0 t !! S n = Some y)
      by (rewrite Hs; rewrite lookup_app_l by lia; exact Hy).
    pose proof (sorted_lookup_lt _ n (S n) e y (enders_from_sorted 0 t) Hn Hy' ltac:(lia)).
    assert (Hyin : y ∈ enders_from 0 (take e t ++ [c])) by (eapply list_elem_of_lookup_2; eauto).
    apply enders_from_bounds in Hyin. rewrite length_app, Hlen in Hyin. simpl in Hyin. lia.
Qed.

End TrimFacts.

Module TrimResult.
Import Trim PyStrFacts TrimFacts.

(** Every result of [_trim_to_sentences] is a substring of its input. *)
Lemma trim_result_substring text m r :
  trim_to_sentences text m = Some r -> substring_of r text.
Proof.
  pose proof (strip_substring text) as Hsub.
  unfold trim_to_sentences. destruct (strip text) as [|c0 t0] eqn:Ht.
  - intros [= <-]. exact Hsub.
  - destruct (enders (c0 :: t0)) as [|e0 es0] eqn:He.
    + intros [= <-]. exact Hsub.
    + destruct (Z.of_nat (length (e0 :: es0)) <=? m)%Z.
      * intros [= <-]. exact Hsub.
      * destruct (py_index (e0 :: es0) (m - 1)) as [e|]; [|discriminate].
        intros [= <-]. eapply substring_trans; [apply strip_substring|].
        eapply substring_trans; [exact (take_substring (S e) (c0 :: t0))|exact Hsub].
Qed.

(** With a positive limit, no [IndexError] is raised. *)
Lemma trim_result_exists text m :
  (0 < m)%Z -> exists r, trim_to_sentences text m = Some r.
Proof.
  intros Hm. unfold trim_to_sentences. destruct (strip text) as [|c0 t0]; [eauto|].
  destruct (enders (c0 :: t0)) as [|e0 es0] eqn:He; [eauto|].
  destruct (Z.of_nat (length (e0 :: es0)) <=? m)%Z eqn:Hle; [eauto|].
  apply Z.leb_gt in Hle. unfold py_index.
  destruct (0 <=? m - 1)%Z eqn:H0; [|apply Z.leb_gt in H0; lia].
  destruct (lookup_lt_is_Some_2 (e0 :: es0) (Z.to_nat (m - 1))) as [e ->]; [lia|eauto].
Qed.

(** With a positive limit, a result is stripped and has at most [m] enders. *)
Lemma trim_result_shape text m r :
  (0 < m)%Z -> trim_to_sentences text m = Some r ->
  strip r = r /\ (Z.of_nat (length (enders r)) <= m)%Z.
Proof.
  intros Hm. pose proof (strip_idem text) as Hidem. pose proof (strip_head_ok text) as Hh.
  unfold trim_to_sentences. destruct (strip text) as [|c0 t0] eqn:Ht.
  - intros [= <-]. split; [reflexivity|simpl; lia].
  - destruct (enders (c0 :: t0)) as [|e0 es0] eqn:He.
    + intros [= <-]. split; [exact Hidem|]. rewrite He. simpl; lia.
    + destruct (Z.of_nat (length (e0 :: es0)) <=? m)%Z eqn:Hle.
      * apply Z.leb_le in Hle. intros [= <-]. rewrite He. auto.
      * apply Z.leb_gt in Hle. unfold py_index.
        destruct (0 <=? m - 1)%Z eqn:H0; [|apply Z.leb_gt in H0; lia].
        destruct ((e0 :: es0) !! Z.to_nat (m - 1)) as [e|] eqn:Hn; [|discriminate].
        intros [= <-]. rewrite <- He in Hn.
        destruct (cut_prefix (c0 :: t0) _ e Hh Hn) as [Hs Hc].
        change (take (S e) (c0 :: t0)) with (c0 :: take e t0) in Hs, Hc.
        rewrite Hs. split; [exact Hs|lia].
Qed.

(** A stripped text with at most [m] enders is returned unchanged. *)
Lemma trim_fixed text m :
  strip text = text -> (Z.of_nat (length (enders text)) <= m)%Z ->
  trim_to_sentences text m = Some text.
Proof.
  intros Hs Hle. unfold trim_to_sentences. rewrite Hs.
  destruct text as [|c t]; [reflexivity|].
  destruct (enders (c :: t)) as [|e es] eqn:He; [reflexivity|].
  apply Z.leb_le in Hle. rewrite Hle. reflexivity.
Qed.

End TrimResult.

Module FlexFacts.
Import Flex PyStrFacts.

Lemma find_close_prefix s b : find_close s = Some b -> exists k, s = b ++ k.
Proof.
  revert b. induction s as [|c r IH]; intros b H; cbn [find_close] in H; [discriminate|].
  destruct (starts_with fence_close (c :: r)).
  - injection H as <-. exists (c :: r). reflexivity.
  - destruct (find_close r) as [b'|] eqn:E; simpl in H; [|discriminate].
    injection H as <-. destruct (IH b' eq_refl) as [k ->]. exists k. reflexivity.
Qed.

Lemma drop_substring n (l : pystr) : substring_of (drop n l) l.
Proof. exists (take n l), []. rewrite app_nil_r. symmetry. apply take_drop. Qed.

Lemma after_nl_substring l body : after_nl l = Some body -> substring_of body l.
Proof.
  unfold after_nl. destruct l as [|c b]; [discriminate|]. intros H.
  assert (Hb : find_close b = Some body).
  { destruct c as [|p]; [discriminate|].
    repeat (destruct p as [p|p|]; try discriminate). exact H. }
  destruct (find_close_prefix b body Hb) as [k ->]. exists [c], k. reflexivity.
Qed.

Lemma fence_at_substring s b : fence_at s = Some b -> substring_of b s.
Proof.
  unfold fence_at. destruct (starts_with fence_open s); [|discriminate].
  destruct (if ci_json (drop 3 s) then after_nl (drop 4 (drop 3 s)) else None)
    as [body|] eqn:E.
  - intros [= <-]. destruct (ci_json (drop 3 s)); [|discriminate].
    apply after_nl_substring in E.
    eapply substring_trans; [exact E|].
    eapply substring_trans; [apply drop_substring|apply drop_substring].
  - intros H. apply after_nl_substring in H.
    eapply substring_trans; [exact H|apply drop_substring].
Qed.

Lemma fence_search_substring s b : fence_search s = Some b -> substring_of b s.
Proof.
  induction s as [|c r IH]; simpl; [discriminate|].
  destruct (fence_at (c :: r)) as [b'|] eqn:E.
  - intros [= <-]. apply fence_at_substring, E.
  - intros H. eapply substring_trans; [apply IH, H|]. exists [c], []. rewrite app_nil_r. reflexivity.
Qed.


Definition no_char (ch : N) (l : pystr) : Prop := Forall (fun c => c <> ch) l.

Ltac list_eq := simpl; repeat (rewrite <- app_assoc; simpl); reflexivity.

Lemma fence_search_skip P R :
  no_char 96 P -> fence_search (P ++ R) = fence_search R.
Proof.
  induction P as [|c P IH]; intros H; [reflexivity|].
  inversion H as [|? ? Hc HP]; subst. cbn [app fence_search].
  assert (fence_at (c :: P ++ R) = None) as ->.
  { unfold fence_at. cbn [starts_with fence_open].
    destruct (N.eqb_spec 96 c); [congruence|reflexivity]. }
  apply IH, HP.
Qed.

Lemma find_close_body b Q :
  no_char 96 b -> find_close (b ++ fence_close ++ Q) = Some b.
Proof.
  induction b as [|c b IH]; intros H; [reflexivity|].
  inversion H as [|? ? Hc Hb]; subst. cbn [app find_close].
  assert (starts_with fence_close (c :: b ++ fence_close ++ Q) = false) as ->.
  { unfold fence_close. cbn [starts_with].
    destruct b as [|d b']; cbn [app starts_with].
    - rewrite andb_false_r. reflexivity.
    - inversion Hb as [|? ? Hd _]; subst.
      destruct (N.eqb_spec 96 d); [congruence|]. rewrite andb_false_r. reflexivity. }
  rewrite (IH Hb). reflexivity.
Qed.

Lemma lstrip_nonspace p c y :
  is_space c = false -> exists P', (exists k, p = k ++ P') /\ lstrip (p ++ c :: y) = P' ++ c :: y.
Proof.
  intros Hc. rewrite lstrip_app.
  assert (Hcy : lstrip (c :: y) = c :: y) by (simpl; rewrite Hc; reflexivity).
  destruct (lstrip_suffix p) as [k Hk].
  destruct (lstrip p) as [|a l] eqn:E.
  - exists []. split; [exists p; rewrite app_nil_r; reflexivity|exact Hcy].
  - exists (a :: l). split; [exists k; exact Hk|reflexivity].
Qed.

Lemma rstrip_nonspace x c y :
  is_space c = false -> rstrip (x ++ c :: y) = x ++ c :: rstrip y.
Proof.
  intros Hc. unfold rstrip. rewrite rev_app_distr. cbn [rev].
  rewrite <- app_assoc. cbn [app]. rewrite lstrip_app.
  destruct (lstrip (rev y)) as [|a l] eqn:E; cbn [lstrip]; rewrite ?Hc.
  - cbn [rev]. rewrite rev_involutive. reflexivity.
  - rewrite rev_app_distr. cbn [rev]. rewrite rev_involutive, <- app_assoc. reflexivity.
Qed.

Lemma no_char_suffix ch k P : no_char ch (k ++ P) -> no_char ch P.
Proof. unfold no_char. rewrite Forall_app. tauto. Qed.

Lemma find_char_app ch P r :
  no_char ch P -> find_char ch (P ++ ch :: r) = Some (length P).
Proof.
  induction P as [|c P IH]; intros H; cbn [app find_char].
  - rewrite N.eqb_refl. reflexivity.
  - inversion H as [|? ? Hc HP]; subst.
    destruct (N.eqb_spec c ch); [congruence|]. rewrite (IH HP). reflexivity.
Qed.

Lemma rfind_char_last ch x : rfind_char ch (x ++ [ch]) = Some (length x).
Proof.
  unfold rfind_char. rewrite rev_app_distr. cbn [rev app find_char].
  rewrite N.eqb_refl, length_app. simpl. f_equal. lia.
Qed.

Lemma no_char_head ch P : no_char ch P -> forall c r, P = c :: r -> c <> ch.
Proof. intros H c r ->. inversion H; assumption. Qed.


Section Loads.
Variable loads : pystr -> option json.

Lemma parse_nonnil text :
  text <> [] ->
  parse_json_flexible loads text =
  match fence_stage loads (strip text) with
  | Some v => v
  | None => match direct_stage loads (strip text) with
            | Some v => v
            | None => match brace_stage loads (strip text) with
                      | Some v => v
                      | None => JObj []
                      end
            end
  end.
Proof. destruct text; [congruence|reflexivity]. Qed.

Lemma flex_fenced p b q v :
  no_char 96 p -> no_char 96 b -> loads (strip b) = Some v ->
  parse_json_flexible loads (p ++ u "```json" ++ [10] ++ b ++ fence_close ++ q) = v.
Proof.
  intros Hp Hb Hv.
  set (R := [96;96;106;115;111;110;10] ++ b ++ [10;96;96] ++ 96 :: q).
  assert (Ht : p ++ u "```json" ++ [10] ++ b ++ fence_close ++ q = p ++ 96 :: R)
    by reflexivity.
  rewrite Ht, parse_nonnil by (destruct p; discriminate).
  destruct (lstrip_nonspace p 96 R eq_refl) as [P' [[k Hk] Hl]].
  assert (HP : no_char 96 P') by (apply (no_char_suffix 96 k); rewrite <- Hk; exact Hp).
  unfold strip. rewrite Hl. unfold R.
  replace (P' ++ 96 :: [96;96;106;115;111;110;10] ++ b ++ [10;96;96] ++ 96 :: q)
    with ((P' ++ 96 :: [96;96;106;115;111;110;10] ++ b ++ [10;96;96]) ++ 96 :: q)
    by list_eq.
  rewrite rstrip_nonspace by reflexivity.
  replace ((P' ++ 96 :: [96;96;106;115;111;110;10] ++ b ++ [10;96;96]) ++ 96 :: rstrip q)
    with (P' ++ [96;96;96;106;115;111;110;10] ++ b ++ fence_close ++ rstrip q)
    by list_eq.
  unfold fence_stage. rewrite fence_search_skip by exact HP.
  cbn [app fence_search]. unfold fence_at. cbn -[find_close].
  pose proof (find_close_body b (rstrip q) Hb) as Hf. cbn [fence_close app] in Hf.
  rewrite Hf, Hv. reflexivity.
Qed.


Lemma slice_whole P o : slice (length P) (length P + length o) (P ++ o) = o.
Proof.
  unfold slice. rewrite drop_app_length'. 2: reflexivity.
  replace (length P + length o - length P)%nat with (length o) by lia.
  apply take_ge. lia.
Qed.

Lemma flex_trailing_object p m v :
  no_char 96 p -> no_char 123 p -> fence_search (123 :: m ++ [125]) = None ->
  loads (123 :: m ++ [125]) = Some v ->
  parse_json_flexible loads (p ++ 123 :: m ++ [125]) = v.
Proof.
  intros Hp Hp' Hf Hv.
  rewrite parse_nonnil by (destruct p; discriminate).
  destruct (lstrip_nonspace p 123 (m ++ [125]) eq_refl) as [P' [[k Hk] Hl]].
  assert (HP : no_char 96 P') by (apply (no_char_suffix 96 k); rewrite <- Hk; exact Hp).
  assert (HP' : no_char 123 P') by (apply (no_char_suffix 123 k); rewrite <- Hk; exact Hp').
  assert (Hs : strip (p ++ 123 :: m ++ [125]) = P' ++ 123 :: m ++ [125]).
  { unfold strip. rewrite Hl.
    replace (P' ++ 123 :: m ++ [125]) with ((P' ++ 123 :: m) ++ 125 :: []) by list_eq.
    rewrite rstrip_nonspace by reflexivity. reflexivity. }
  rewrite Hs.
  assert (Hfs : fence_stage loads (P' ++ 123 :: m ++ [125]) = None).
  { unfold fence_stage. rewrite fence_search_skip, Hf by exact HP. reflexivity. }
  rewrite Hfs.
  assert (Hrev : rev (P' ++ 123 :: m ++ [125]) = 125 :: rev (P' ++ 123 :: m)).
  { replace (P' ++ 123 :: m ++ [125]) with ((P' ++ 123 :: m) ++ [125]) by list_eq.
    apply rev_unit. }
  destruct P' as [|a P''].
  - unfold direct_stage, direct_shape. rewrite Hrev. cbn [app starts_with].
    rewrite !N.eqb_refl. simpl. rewrite Hv. reflexivity.
  - assert (Ha : a <> 123) by (eapply no_char_head; [exact HP'|reflexivity]).
    assert (Hd : direct_stage loads ((a :: P'') ++ 123 :: m ++ [125]) = None).
    { unfold direct_stage, direct_shape. rewrite Hrev. cbn [app starts_with].
      destruct (N.eqb_spec 123 a); [congruence|]. simpl. rewrite andb_false_r. reflexivity. }
    rewrite Hd. unfold brace_stage.
    rewrite find_char_app by exact HP'.
    assert (Hr : rfind_char 125 ((a :: P'') ++ 123 :: m ++ [125])
                 = Some (length ((a :: P'') ++ 123 :: m))).
    { replace ((a :: P'') ++ 123 :: m ++ [125]) with (((a :: P'') ++ 123 :: m) ++ [125])
        by list_eq. apply rfind_char_last. }
    rewrite Hr.
    replace (length ((a :: P'') ++ 123 :: m))
      with (length (a :: P'') + S (length m))%nat by (rewrite length_app; reflexivity).
    destruct (Nat.ltb_spec (length (a :: P'')) (length (a :: P'') + S (length m))); [|lia].
    replace (S (length (a :: P'') + S (length m)))
      with (length (a :: P'') + length (123%N :: m ++ [125%N]))%nat
      by (cbn [length]; rewrite length_app; cbn [length]; lia).
    rewrite slice_whole, Hv. reflexivity.
Qed.


Lemma flex_no_json text :
  (forall sub, substring_of sub text -> loads sub = None) ->
  parse_json_flexible loads text = JObj [].
Proof.
  intros H. destruct text as [|c r]; [reflexivity|].
  rewrite parse_nonnil by discriminate.
  pose proof (strip_substring (c :: r)) as Ht.
  assert (Hf : fence_stage loads (strip (c :: r)) = None).
  { unfold fence_stage. destruct (fence_search (strip (c :: r))) as [b|] eqn:E; [|reflexivity].
    apply H. eapply substring_trans; [apply strip_substring|].
    eapply substring_trans; [apply fence_search_substring, E|exact Ht]. }
  assert (Hd : direct_stage loads (strip (c :: r)) = None).
  { unfold direct_stage. destruct (direct_shape _); [apply H, Ht|reflexivity]. }
  assert (Hb : brace_stage loads (strip (c :: r)) = None).
  { unfold brace_stage.
    destruct (find_char 123 (strip (c :: r))) as [st|], (rfind_char 125 (strip (c :: r))) as [en|];
      try reflexivity.
    destruct (st <? en)%nat; [|reflexivity]. apply H.
    eapply substring_trans; [|exact Ht]. unfold slice.
    eapply substring_trans; [apply take_substring|apply drop_substring]. }
  rewrite Hf, Hd, Hb. reflexivity.
Qed.

End Loads.

End FlexFacts.

Module SDKFacts.
Import SDK.

(** [m] returns normally, whatever the state. *)
Definition no_raise {A} (m : M A) : Prop := forall s, exists a s', m s = (inr a, s').

(** [m] issues at most [n] backend calls. *)
Definition calls_le {A} (m : M A) (n : nat) : Prop :=
  forall s, (calls (snd (m s)) <= calls s + n)%nat.

Lemma ret_no_raise {A} (a : A) : no_raise (ret a).
Proof. intros s. exists a, s. reflexivity. Qed.

Lemma catch_no_raise {A} (m : M A) h : (forall e, no_raise (h e)) -> no_raise (catch m h).
Proof.
  intros Hh s. unfold catch. destruct (m s) as [[e|a] s'].
  - apply Hh.
  - exists a, s'. reflexivity.
Qed.

Lemma bind_no_raise {A B} (m : M A) (k : A -> M B) :
  no_raise m -> (forall a, no_raise (k a)) -> no_raise (bind m k).
Proof.
  intros Hm Hk s. unfold bind. destruct (Hm s) as [a [s' ->]]. apply Hk.
Qed.

Lemma set_error_then_ret {A} e (a : A) : no_raise (set_error e ;; ret a).
Proof. intros s. eexists _, _. reflexivity. Qed.

Lemma ret_calls {A} (a : A) : calls_le (ret a) 0.
Proof. intros s. simpl. lia. Qed.

Lemma raise_calls {A} e : calls_le (@raise A e) 0.
Proof. intros s. simpl. lia. Qed.

Lemma set_raw_calls c : calls_le (set_raw c) 0.
Proof. intros s. simpl. lia. Qed.

Lemma set_error_calls c : calls_le (set_error c) 0.
Proof. intros s. simpl. lia. Qed.

Lemma create_calls backend fmt user : calls_le (create backend fmt user) 1.
Proof. intros s. unfold create. destruct (backend _ _ _); simpl; lia. Qed.

Lemma bind_calls {A B} (m : M A) (k : A -> M B) a b :
  calls_le m a -> (forall x, calls_le (k x) b) -> calls_le (bind m k) (a + b).
Proof.
  intros Hm Hk s. unfold bind. specialize (Hm s).
  destruct (m s) as [[e|x] s'] eqn:E; simpl in *; [lia|].
  specialize (Hk x s'). lia.
Qed.

Lemma catch_calls {A} (m : M A) h a b :
  calls_le m a -> (forall e, calls_le (h e) b) -> calls_le (catch m h) (a + b).
Proof.
  intros Hm Hh s. unfold catch. specialize (Hm s).
  destruct (m s) as [[e|x] s'] eqn:E; simpl in *; [|lia].
  specialize (Hh e s'). lia.
Qed.

Lemma calls_le_mono {A} (m : M A) a b : calls_le m a -> (a <= b)%nat -> calls_le m b.
Proof. intros H Hab s. specialize (H s). lia. Qed.

Ltac calls_step :=
  match goal with
  | |- calls_le (bind _ _) _ => eapply bind_calls; [|intro]
  | |- calls_le (mbind _ _) _ => eapply bind_calls; [|intro]
  | |- calls_le (catch _ _) _ => eapply catch_calls; [|intro]
  | |- calls_le (create _ _ _) _ => apply create_calls
  | |- calls_le (set_raw _) _ => apply set_raw_calls
  | |- calls_le (set_error _) _ => apply set_error_calls
  | |- calls_le (ret _) _ => apply ret_calls
  | |- calls_le (mret _) _ => apply ret_calls
  | |- calls_le (raise _) _ => apply raise_calls
  end.

Section Backend.
Variable backend : nat -> bool -> pystr -> reply.
Variable loads : pystr -> option json.

Lemma json_loads_m_calls c : calls_le (json_loads_m loads c) 0.
Proof. unfold json_loads_m. destruct (loads c); [apply ret_calls|apply raise_calls]. Qed.

Lemma fallback_call_calls user : calls_le (fallback_call backend loads user) 1.
Proof.
  unfold fallback_call. change 1%nat with (1 + (0 + 0))%nat.
  repeat calls_step.
Qed.

Lemma attempt_body_calls (k : pystr -> M (option json)) user :
  (forall c, calls_le (k c) 0) ->
  calls_le (c ← create backend true user ; set_raw c ;; k c) 1.
Proof.
  intros Hk. change 1%nat with (1 + (0 + 0))%nat. repeat calls_step. apply Hk.
Qed.

Lemma loads_some_calls c : calls_le (v ← json_loads_m loads c ; ret (Some v)) 0.
Proof.
  change 0%nat with (0 + 0)%nat. calls_step; [apply json_loads_m_calls|apply ret_calls].
Qed.

Lemma agents_path_calls user : calls_le (agents_path backend loads user) 2.
Proof.
  unfold agents_path. change 2%nat with ((1 + (0 + 1)) + (0 + 0))%nat.
  eapply catch_calls; [eapply catch_calls|intro; repeat calls_step].
  - apply attempt_body_calls. intros [|c r]; [apply ret_calls|apply loads_some_calls].
  - intro. calls_step; [apply set_error_calls|apply fallback_call_calls].
Qed.

Lemma chat_attempt_calls user : calls_le (chat_attempt backend loads user) 2.
Proof.
  unfold chat_attempt. change 2%nat with ((1 + (0 + 1)) + (0 + 0))%nat.
  eapply catch_calls; [eapply catch_calls|intro; repeat calls_step].
  - apply attempt_body_calls. intros c. destruct (strip c); [apply ret_calls|apply loads_some_calls].
  - intro. calls_step; [apply set_error_calls|apply fallback_call_calls].
Qed.

Lemma chat_loop_calls k user hint : calls_le (chat_loop backend loads k user hint) (2 * k).
Proof.
  revert user. induction k as [|k IH]; intros user; simpl chat_loop.
  - apply ret_calls.
  - replace (2 * S k)%nat with (2 + 2 * k)%nat by lia.
    eapply bind_calls; [apply chat_attempt_calls|].
    intros [v|]; [eapply calls_le_mono; [apply ret_calls|lia]|apply IH].
Qed.

Lemma run_json_calls md user hint attempts :
  calls_le (run_json backend loads md user hint attempts)
    ((match md with WithAgents => 2 | _ => 0 end) +
     (match md with NoClient => 0 | _ => 2 * Z.to_nat (Z.max 1 attempts) end))%nat.
Proof.
  unfold run_json. eapply bind_calls.
  - destruct md; [apply ret_calls|apply ret_calls|apply agents_path_calls].
  - intros [v|].
    + eapply calls_le_mono; [apply ret_calls|lia].
    + destruct md.
      * apply ret_calls.
      * eapply calls_le_mono;
          [eapply bind_calls; [apply chat_loop_calls|intro; apply ret_calls]|lia].
      * eapply calls_le_mono;
          [eapply bind_calls; [apply chat_loop_calls|intro; apply ret_calls]|lia].
Qed.

(** No exception escapes [run_json]. *)
Lemma chat_loop_no_raise k user hint : no_raise (chat_loop backend loads k user hint).
Proof.
  revert user. induction k as [|k IH]; intros user; simpl chat_loop.
  - apply ret_no_raise.
  - apply bind_no_raise.
    + unfold chat_attempt. apply catch_no_raise. intro. apply set_error_then_ret.
    + intros [v|]; [apply ret_no_raise|apply IH].
Qed.

Lemma run_json_no_raise md user hint attempts :
  no_raise (run_json backend loads md user hint attempts).
Proof.
  unfold run_json. apply bind_no_raise.
  - destruct md; try apply ret_no_raise.
    unfold agents_path. apply catch_no_raise. intro. apply set_error_then_ret.
  - intros [v|]; [apply ret_no_raise|].
    destruct md; try apply ret_no_raise;
      (apply bind_no_raise; [apply chat_loop_no_raise|intro; apply ret_no_raise]).
Qed.

End Backend.

End SDKFacts.

Module IncidentFacts.
Import Incident.

Lemma py_tail_length {A} n (l : list A) : length (py_tail n l) = Nat.min n (length l).
Proof. unfold py_tail. rewrite length_drop. lia. Qed.

Lemma py_tail_suffix {A} n (l : list A) : exists q, l = q ++ py_tail n l.
Proof. unfold py_tail. exists (take (length l - n) l). symmetry. apply take_drop. Qed.

Lemma clean_note_key seg n : note_key (clean_note seg n) = seg_key seg.
Proof. reflexivity. Qed.

(** What one segment does to the state: one or two calls, each with the
    last 20 prior entries, and either nothing merged or a merge of some notes
    followed by the cap. *)
Lemma process_segment_cases f st seg :
  exists j notes,
    (j = 1 \/ j = 2)%nat /\
    windows (process_segment f st seg) = windows st ++ replicate j (py_tail 20 (prior st)) /\
    ((imap (process_segment f st seg) = imap st /\ prior (process_segment f st seg) = prior st)
     \/ (exists M P, fold_left (merge_note seg) notes (imap st, prior st) = (M, P) /\
          imap (process_segment f st seg) = M /\
          prior (process_segment f st seg) = if (60 <? length P)%nat then py_tail 60 P else P)).
Proof.
  unfold process_segment, incident_call. cbn [imap prior windows].
  remember (f (length (windows st)) seg (py_tail 20 (prior st))) as n1 eqn:E1.
  remember (f (length (windows st ++ [py_tail 20 (prior st)])) seg (py_tail 20 (prior st)))
    as n2 eqn:E2.
  destruct (negb (null n1) && has_labels n1).
  - exists 1%nat, n1. split; [left; reflexivity|].
    destruct n1 as [|a l].
    + split; [reflexivity|]. left; split; reflexivity.
    + destruct (fold_left (merge_note seg) (a :: l) (imap st, prior st)) as [M P] eqn:Ef.
      cbn [imap prior windows]. rewrite Ef.
      split; [reflexivity|]. right. exists M, P. auto.
  - exists 2%nat, n2. split; [right; reflexivity|].
    destruct n2 as [|a l].
    + split; [simpl; rewrite <- app_assoc; reflexivity|]. left; split; reflexivity.
    + destruct (fold_left (merge_note seg) (a :: l) (imap st, prior st)) as [M P] eqn:Ef.
      cbn [imap prior windows]. rewrite Ef.
      split; [simpl; rewrite <- app_assoc; reflexivity|]. right. exists M, P. auto.
Qed.

(** A property of the map kept by every merge is kept by the whole stage. *)
Section Preserve.
Variable Pm : incident_map -> Prop.

Lemma fold_merge_pres seg notes acc :
  (forall acc n, Pm (fst acc) -> Pm (fst (merge_note seg acc n))) ->
  Pm (fst acc) -> Pm (fst (fold_left (merge_note seg) notes acc)).
Proof. intros H. revert acc. induction notes as [|n ns IH]; simpl; auto. Qed.

Lemma process_segment_pres f st seg :
  (forall acc n, Pm (fst acc) -> Pm (fst (merge_note seg acc n))) ->
  Pm (imap st) -> Pm (imap (process_segment f st seg)).
Proof.
  intros H Hst.
  destruct (process_segment_cases f st seg) as (j & notes & _ & _ & [[-> _]|(M & P & Ef & -> & _)]);
    [exact Hst|].
  change M with (fst (M, P)). rewrite <- Ef. apply fold_merge_pres; auto.
Qed.

End Preserve.

Definition well_keyed (M : incident_map) : Prop :=
  forall k n, M !! k = Some n -> note_key n = k.

Definition keys_in (ks : list (pystr * Z)) (M : incident_map) : Prop :=
  forall k, is_Some (M !! k) -> k ∈ ks.

Lemma merge_note_shape seg acc n :
  fst (merge_note seg acc n) = fst acc
  \/ fst (merge_note seg acc n) = <[seg_key seg := clean_note seg n]> (fst acc).
Proof.
  unfold merge_note. cbn [fst]. rewrite clean_note_key.
  destruct (fst acc !! seg_key seg) as [old|]; [destruct (note_labels old)|]; auto.
Qed.

Lemma merge_note_well_keyed seg acc n :
  well_keyed (fst acc) -> well_keyed (fst (merge_note seg acc n)).
Proof.
  intros H k m. destruct (merge_note_shape seg acc n) as [->| ->]; [apply H|].
  rewrite lookup_insert_Some. intros [[<- <-]|[_ Hk]]; [reflexivity|eauto].
Qed.

Lemma merge_note_keys_in ks seg acc n :
  seg_key seg ∈ ks -> keys_in ks (fst acc) -> keys_in ks (fst (merge_note seg acc n)).
Proof.
  intros Hs H k Hk. destruct (merge_note_shape seg acc n) as [E|E]; rewrite E in Hk; [auto|].
  destruct (decide (seg_key seg = k)) as [<-|Hne]; [exact Hs|].
  rewrite lookup_insert_ne in Hk by exact Hne. auto.
Qed.

Lemma merge_note_keeps_labeled seg acc n k old :
  fst acc !! k = Some old -> note_labels old <> [] ->
  fst (merge_note seg acc n) !! k = Some old.
Proof.
  intros Hk Hl. unfold merge_note. cbn [fst]. rewrite clean_note_key.
  destruct (decide (seg_key seg = k)) as [<-|Hne].
  - rewrite Hk. destruct (note_labels old); [congruence|exact Hk].
  - destruct (fst acc !! seg_key seg) as [o|]; [destruct (note_labels o)|];
      try rewrite lookup_insert_ne by exact Hne; exact Hk.
Qed.

Lemma merge_note_replaces seg acc n :
  note_labels (clean_note seg n) <> [] ->
  (forall old, fst acc !! seg_key seg = Some old -> note_labels old = []) ->
  fst (merge_note seg acc n) !! seg_key seg = Some (clean_note seg n).
Proof.
  intros Hl Hold. unfold merge_note. cbn [fst]. rewrite clean_note_key.
  destruct (fst acc !! seg_key seg) as [o|] eqn:E.
  - rewrite (Hold o eq_refl). apply lookup_insert_eq.
  - apply lookup_insert_eq.
Qed.

Lemma loop_well_keyed f segs st :
  well_keyed (imap st) -> well_keyed (imap (fold_left (process_segment f) segs st)).
Proof.
  revert st. induction segs as [|seg segs IH]; intros st H; simpl; [exact H|].
  apply IH. apply process_segment_pres; [|exact H].
  intros acc n. apply merge_note_well_keyed.
Qed.

Lemma loop_keys_in f segs st ks :
  Forall (fun seg => seg_key seg ∈ ks) segs -> keys_in ks (imap st) ->
  keys_in ks (imap (fold_left (process_segment f) segs st)).
Proof.
  revert st. induction segs as [|seg segs IH]; intros st Hf H; simpl; [exact H|].
  inversion Hf; subst. apply IH; [assumption|].
  apply process_segment_pres; [|exact H].
  intros acc n. apply merge_note_keys_in. assumption.
Qed.

Lemma loop_keeps_labeled f segs st k old :
  imap st !! k = Some old -> note_labels old <> [] ->
  imap (fold_left (process_segment f) segs st) !! k = Some old.
Proof.
  revert st. induction segs as [|seg segs IH]; intros st Hk Hl; simpl; [exact Hk|].
  apply IH; [|exact Hl].
  apply (process_segment_pres (fun M => M !! k = Some old)); [|exact Hk].
  intros acc n Ha. apply merge_note_keeps_labeled; assumption.
Qed.

Lemma order_records_keys (M : incident_map) ks :
  well_keyed M ->
  map note_key (omap (fun k => M !! k) ks) = List.filter (fun k => bool_decide (is_Some (M !! k))) ks.
Proof.
  intros H. induction ks as [|k ks IH]; simpl; [reflexivity|].
  destruct (M !! k) as [n|] eqn:E.
  - rewrite bool_decide_true by (eexists; reflexivity). simpl. rewrite (H k n E). f_equal. exact IH.
  - rewrite bool_decide_false by (intros [? ?]; discriminate). exact IH.
Qed.

Lemma segs_keys_in (segs proc : list segment) :
  proc ≡ₚ segs -> Forall (fun seg => seg_key seg ∈ map seg_key segs) proc.
Proof.
  intros Hp. apply Forall_forall. intros seg Hin.
  apply list_elem_of_In in Hin. apply (Permutation_in _ Hp) in Hin.
  apply list_elem_of_In, in_map, Hin.
Qed.

Lemma istate0_well_keyed : well_keyed (imap istate0).
Proof. intros k n. simpl. rewrite lookup_empty. discriminate. Qed.

Lemma istate0_keys_in ks : keys_in ks (imap istate0).
Proof. intros k [n Hn]. simpl in Hn. rewrite lookup_empty in Hn. discriminate. Qed.

Lemma prior_cap_bound (P : list prior_entry) :
  (length (if (60 <? length P)%nat then py_tail 60 P else P) <= 60)%nat.
Proof.
  destruct (60 <? length P)%nat eqn:E.
  - rewrite py_tail_length. lia.
  - apply Nat.ltb_ge in E. exact E.
Qed.

Lemma loop_bounds f segs st :
  (length (prior st) <= 60)%nat -> Forall (fun w => (length w <= 20)%nat) (windows st) ->
  (length (prior (fold_left (process_segment f) segs st)) <= 60)%nat
  /\ Forall (fun w => (length w <= 20)%nat) (windows (fold_left (process_segment f) segs st)).
Proof.
  revert st. induction segs as [|seg segs IH]; intros st Hp Hw; simpl; [auto|].
  apply IH.
  - destruct (process_segment_cases f st seg) as (j & notes & _ & _ & [[_ ->]|(M & P & _ & _ & ->)]);
      [exact Hp|apply prior_cap_bound].
  - destruct (process_segment_cases f st seg) as (j & notes & _ & -> & _).
    apply Forall_app; split; [exact Hw|].
    apply Forall_replicate. rewrite py_tail_length. lia.
Qed.

End IncidentFacts.

Module QuotesFacts.
Import PyStrFacts Trim TrimResult Quotes.

Lemma Forall2_in_r {A B} (R : A -> B -> Prop) l k y :
  Forall2 R l k -> In y k -> exists x, In x l /\ R x y.
Proof.
  induction 1 as [|x y' l k Hxy _ IH]; simpl; [contradiction|].
  intros [<-|Hin]; [eauto|]. destruct (IH Hin) as (x' & ? & ?). eauto.
Qed.

Lemma mapM_total {A B} (f : A -> option B) l :
  (forall x, In x l -> exists y, f x = Some y) ->
  exists k, mapM f l = Some k /\ Forall2 (fun x y => f x = Some y) l k.
Proof.
  induction l as [|x l IH]; intros H.
  - exists []. split; [reflexivity|constructor].
  - destruct (H x (or_introl eq_refl)) as [y Hy].
    destruct IH as [k [_ Hk]]; [intros; apply H; right; assumption|].
    exists (y :: k). assert (Hf : Forall2 (fun x y => f x = Some y) (x :: l) (y :: k))
      by (constructor; assumption).
    split; [apply mapM_Some_2, Hf|exact Hf].
Qed.

Lemma by_cat_fold_lookup rows m i l :
  fold_left by_cat_step rows m !! i = Some l ->
  m !! i = Some l
  \/ exists r, In r rows /\ fst r = i /\ l = List.filter nonblank (map strip (snd r)).
Proof.
  revert m. induction rows as [|r rows IH]; intros m H; simpl in H; [left; exact H|].
  destruct (IH _ H) as [H1|(r' & Hin & Hi & Hl)].
  - unfold by_cat_step in H1. apply lookup_insert_Some in H1.
    destruct H1 as [[Hi Hl]|[_ H1]]; [right; exists r; simpl; auto|left; exact H1].
  - right. exists r'. simpl. auto.
Qed.

Lemma by_cat_lookup rows i l :
  by_cat rows !! i = Some l ->
  exists r, In r rows /\ fst r = i /\ l = List.filter nonblank (map strip (snd r)).
Proof.
  intros H. destruct (by_cat_fold_lookup rows ∅ i l H) as [H0|H0]; [|exact H0].
  rewrite lookup_empty in H0. discriminate.
Qed.

Lemma nonblank_true q : nonblank q = true -> q <> [].
Proof. unfold nonblank, Incident.null. destruct q; simpl; congruence. Qed.

Lemma supporting_quotes_spec bc idx :
  exists qs, supporting_quotes bc idx = Some qs /\ (length qs <= 3)%nat /\
    forall q, In q qs -> q <> [] /\ strip q <> [] /\
      exists q0, In q0 (default [] (bc !! idx)) /\ substring_of q q0.
Proof.
  unfold supporting_quotes.
  destruct (mapM_total (fun q => trim_to_sentences q 3) (take 3 (default [] (bc !! idx))))
    as [ts [Hm Hf]].
  { intros x _. apply trim_result_exists. lia. }
  rewrite Hm. simpl. eexists; split; [reflexivity|]. split.
  - rewrite filter_length_le. rewrite <- (Forall2_length _ _ _ Hf), length_take. lia.
  - intros q Hq. apply filter_In in Hq. destruct Hq as [Hin Hb].
    apply andb_prop in Hb. destruct Hb as [Hb1 Hb2].
    split; [apply nonblank_true, Hb1|]. split; [apply nonblank_true, Hb2|].
    destruct (Forall2_in_r _ _ _ _ Hf Hin) as (q1 & Hq1 & Ht).
    exists q1. split; [|apply (trim_result_substring _ _ _ Ht)].
    apply list_elem_of_In in Hq1. apply elem_of_take in Hq1. destruct Hq1 as (i & Hi & _).
    apply list_elem_of_In. eapply list_elem_of_lookup_2. exact Hi.
Qed.

End QuotesFacts.

Module SynthFacts.
Import Incident Synth.

Lemma flatten_in pc r :
  In r (flatten pc) <->
  exists c n l, In c pc /\ In n c /\ In l (note_labels n)
    /\ r = mkRow l (note_transcript n) (note_segment_number n) (note_memo n).
Proof.
  unfold flatten. rewrite in_concat. split.
  - intros (rs & Hrs & Hr). apply in_map_iff in Hrs. destruct Hrs as (c & <- & Hc).
    apply in_concat in Hr. destruct Hr as (rs' & Hrs' & Hr). apply in_map_iff in Hrs'.
    destruct Hrs' as (n & <- & Hn). apply in_map_iff in Hr. destruct Hr as (l & <- & Hl).
    exists c, n, l. auto.
  - intros (c & n & l & Hc & Hn & Hl & ->).
    eexists; split; [apply in_map_iff; exists c; split; [reflexivity|exact Hc]|].
    apply in_concat. eexists; split; [apply in_map_iff; exists n; split; [reflexivity|exact Hn]|].
    apply in_map_iff. exists l. auto.
Qed.

Lemma add_seg_label seg p : pat_label (add_seg seg p) = pat_label p.
Proof. unfold add_seg. destruct (decide _); reflexivity. Qed.

Lemma add_seg_in seg p s :
  In s (representative_segments (add_seg seg p)) <-> In s (representative_segments p) \/ s = seg.
Proof.
  unfold add_seg. destruct (decide (seg ∈ representative_segments p)) as [Hin|Hin]; simpl.
  - apply list_elem_of_In in Hin. split; [auto|]. intros [H| ->]; auto.
  - rewrite in_app_iff. simpl. intuition.
Qed.

Lemma add_seg_nodup seg p :
  NoDup (representative_segments p) -> NoDup (representative_segments (add_seg seg p)).
Proof.
  unfold add_seg. destruct (decide (seg ∈ representative_segments p)) as [Hin|Hin]; simpl; [auto|].
  intros H. apply NoDup_app. split; [exact H|]. split; [|apply NoDup_singleton].
  intros x Hx Hy. apply list_elem_of_singleton in Hy. subst. contradiction.
Qed.

Section Keyed.
Variable key : pystr.
Variable fresh : pattern.
Variable seg : pystr.

Lemma setdefault_add_keys seen k :
  In k (map fst (setdefault_add key fresh seg seen)) <-> In k (map fst seen) \/ k = key.
Proof.
  induction seen as [|[k0 p0] rest IH]; simpl; [intuition|].
  destruct (decide (k0 = key)) as [->|Hne]; simpl; [intuition|].
  rewrite IH. intuition.
Qed.

Lemma setdefault_add_nodup seen :
  NoDup (map fst seen) -> NoDup (map fst (setdefault_add key fresh seg seen)).
Proof.
  induction seen as [|[k0 p0] rest IH]; simpl; intros H.
  - apply NoDup_singleton.
  - apply NoDup_cons in H. destruct H as [Hn Hr].
    destruct (decide (k0 = key)) as [->|Hne]; simpl.
    + apply NoDup_cons. split; [exact Hn|exact Hr].
    + apply NoDup_cons. split; [|apply IH, Hr].
      rewrite list_elem_of_In, setdefault_add_keys. rewrite list_elem_of_In in Hn.
      intros [H| ->]; [contradiction|congruence].
Qed.

Lemma setdefault_add_entry seen k p :
  NoDup (map fst seen) ->
  In (k, p) (setdefault_add key fresh seg seen) ->
  (k <> key /\ In (k, p) seen)
  \/ (k = key /\ ((exists p0, In (key, p0) seen /\ p = add_seg seg p0)
                  \/ (~ In key (map fst seen) /\ p = add_seg seg fresh))).
Proof.
  induction seen as [|[k0 p0] rest IH]; simpl; intros Hnd Hin.
  - destruct Hin as [[= <- <-]|[]]. right. split; [reflexivity|]. right. auto.
  - apply NoDup_cons in Hnd. destruct Hnd as [Hn Hr]. rewrite list_elem_of_In in Hn.
    destruct (decide (k0 = key)) as [->|Hne].
    + destruct Hin as [[= <- <-]|Hin].
      * right. split; [reflexivity|]. left. exists p0. auto.
      * left. split; [|auto]. intros ->. apply Hn. apply in_map_iff. exists (key, p). auto.
    + destruct Hin as [[= <- <-]|Hin]; [left; auto|].
      destruct (IH Hr Hin) as [[Hk Hi]|[Hk [(p1 & Hp1 & Hp)|[Hnot Hp]]]].
      * left. auto.
      * right. split; [exact Hk|]. left. exists p1. auto.
      * right. split; [exact Hk|]. right. split; [|exact Hp]. intros [H|H]; [congruence|auto].
Qed.

End Keyed.

Section Lower.
Variable py_lower : pystr -> pystr.

Definition inv (P : list flat_row) (seen : list (pystr * pattern)) : Prop :=
  NoDup (map fst seen)
  /\ (forall k, In k (map fst seen) <-> k <> [] /\ exists r, In r P /\ row_key py_lower r = k)
  /\ (forall k p, In (k, p) seen ->
        NoDup (representative_segments p) /\ pattern_key py_lower p = k
        /\ forall s, In s (representative_segments p) <->
             exists r, In r P /\ row_key py_lower r = k /\ seg_ref r = s).

Lemma inv_nil : inv [] [].
Proof.
  split; [constructor|]. split.
  - intros k. simpl. split; [intros []|intros (_ & r & [] & _)].
  - intros k p [].
Qed.

Lemma in_fst {A B} (k : A) (p : B) l : In (k, p) l -> In k (map fst l).
Proof. intros H. apply in_map_iff. exists (k, p). auto. Qed.

Lemma inv_step P seen r : inv P seen -> inv (P ++ [r]) (dedupe_step py_lower seen r).
Proof.
  intros (Hnd & Hkeys & Hent). unfold dedupe_step.
  destruct (row_key py_lower r) as [|c t] eqn:Ek.
  - split; [exact Hnd|]. split.
    + intros k. rewrite Hkeys. split.
      * intros [Hk (r' & Hr' & Hrk)]. split; [exact Hk|]. exists r'. rewrite in_app_iff. auto.
      * intros [Hk (r' & Hr' & Hrk)]. split; [exact Hk|]. exists r'.
        apply in_app_iff in Hr'. destruct Hr' as [Hr'|[<-|[]]]; [auto|congruence].
    + intros k p Hin. destruct (Hent k p Hin) as (H1 & H2 & H3).
      assert (Hk : k <> []) by (apply Hkeys, (in_fst _ _ _ Hin)).
      split; [exact H1|]. split; [exact H2|]. intros s. rewrite H3. split.
      * intros (r' & Hr' & ?). exists r'. rewrite in_app_iff. auto.
      * intros (r' & Hr' & Hrk & Hs). apply in_app_iff in Hr'.
        destruct Hr' as [Hr'|[<-|[]]]; [eauto|congruence].
  - set (key := c :: t) in *.
    assert (Hkne : key <> []) by discriminate.
    split; [apply setdefault_add_nodup, Hnd|]. split.
    + intros k. rewrite setdefault_add_keys, Hkeys. split.
      * intros [[Hk (r' & Hr' & Hrk)]| ->].
        -- split; [exact Hk|]. exists r'. rewrite in_app_iff. auto.
        -- split; [exact Hkne|]. exists r. rewrite in_app_iff. simpl. auto.
      * intros [Hk (r' & Hr' & Hrk)]. apply in_app_iff in Hr'.
        destruct Hr' as [Hr'|[<-|[]]]; [left; eauto|right; congruence].
    + intros k p Hin.
      destruct (setdefault_add_entry _ _ _ _ _ _ Hnd Hin)
        as [[Hk Hi]|[-> [(p0 & Hp0 & ->)|[Hnot ->]]]].
      * destruct (Hent k p Hi) as (H1 & H2 & H3).
        split; [exact H1|]. split; [exact H2|]. intros s. rewrite H3. split.
        -- intros (r' & Hr' & ?). exists r'. rewrite in_app_iff. auto.
        -- intros (r' & Hr' & Hrk & Hs). apply in_app_iff in Hr'.
           destruct Hr' as [Hr'|[<-|[]]]; [eauto|congruence].
      * destruct (Hent key p0 Hp0) as (H1 & H2 & H3).
        split; [apply add_seg_nodup, H1|]. split.
        { unfold pattern_key. rewrite add_seg_label. exact H2. }
        intros s. rewrite add_seg_in, H3. split.
        -- intros [(r' & Hr' & ?)| ->].
           ++ exists r'. rewrite in_app_iff. auto.
           ++ exists r. rewrite in_app_iff. simpl. auto.
        -- intros (r' & Hr' & Hrk & Hs). apply in_app_iff in Hr'.
           destruct Hr' as [Hr'|[<-|[]]]; [left; eauto|right; congruence].
      * split; [apply add_seg_nodup; constructor|]. split.
        { unfold pattern_key. rewrite add_seg_label. exact Ek. }
        intros s. rewrite add_seg_in. simpl. split.
        -- intros [[]| ->]. exists r. rewrite in_app_iff. simpl. auto.
        -- intros (r' & Hr' & Hrk & Hs). apply in_app_iff in Hr'.
           destruct Hr' as [Hr'|[<-|[]]]; [|right; congruence].
           exfalso. apply Hnot, Hkeys. split; [exact Hkne|]. eauto.
Qed.

Lemma inv_fold flat : inv flat (fold_left (dedupe_step py_lower) flat []).
Proof.
  induction flat as [|r flat IH] using rev_ind; [apply inv_nil|].
  rewrite fold_left_app. simpl. apply inv_step, IH.
Qed.

Lemma map_pattern_key (seen : list (pystr * pattern)) :
  (forall k p, In (k, p) seen -> pattern_key py_lower p = k) ->
  map (pattern_key py_lower) (map snd seen) = map fst seen.
Proof.
  induction seen as [|[k p] rest IH]; simpl; intros H; [reflexivity|].
  rewrite (H k p (or_introl eq_refl)), IH; [reflexivity|]. intros; eauto.
Qed.

Lemma length_concat_map {A B} (f : A -> list B) l :
  length (concat (map f l)) = sum_list_with (fun x => length (f x)) l.
Proof. induction l as [|x l IH]; simpl; [reflexivity|]. rewrite length_app, IH. reflexivity. Qed.

Lemma coder_keys_in c n l :
  In n c -> In l (note_labels n) -> py_lower (strip l) <> [] ->
  In (py_lower (strip l)) (coder_keys py_lower c).
Proof.
  intros Hn Hl Hk. unfold coder_keys. apply list_elem_of_In, elem_of_remove_dups, list_elem_of_In.
  apply filter_In. split.
  - apply in_map_iff. exists l. split; [reflexivity|]. apply in_concat.
    exists (note_labels n). split; [apply in_map_iff; eauto|exact Hl].
  - destruct (py_lower (strip l)); [congruence|reflexivity].
Qed.

End Lower.

(** The properties of the local fallback [dedupe_labels (flatten ...)]. *)
Lemma dedupe_fallback_props (py_lower : pystr -> pystr) (per_coder : list (list note)) :
  let pats := dedupe_labels py_lower (flatten per_coder) in
    NoDup (map (pattern_key py_lower) pats)
    /\ (forall k, In k (map (pattern_key py_lower) pats) <->
          k <> [] /\ exists r, In r (flatten per_coder) /\ row_key py_lower r = k)
    /\ (forall p, In p pats ->
          NoDup (representative_segments p)
          /\ forall s, In s (representative_segments p) <->
               exists r, In r (flatten per_coder) /\ row_key py_lower r = pattern_key py_lower p
                 /\ seg_ref r = s)
    /\ ((forall s, s <> [] -> py_lower s <> []) ->
        (exists c n l, In c per_coder /\ In n c /\ In l (note_labels n) /\ strip l <> []) ->
        pats <> [])
    /\ (length pats <= sum_list_with (fun c => length (coder_keys py_lower c)) per_coder)%nat.
Proof.
  intros pats. unfold pats, dedupe_labels.
  set (seen := fold_left (dedupe_step py_lower) (flatten per_coder) []).
  destruct (inv_fold py_lower (flatten per_coder)) as (Hnd & Hkeys & Hent). fold seen in Hnd, Hkeys, Hent.
  assert (Hmap : map (pattern_key py_lower) (map snd seen) = map fst seen).
  { apply map_pattern_key. intros k p Hin. apply (Hent k p Hin). }
  split; [rewrite Hmap; exact Hnd|].
  split; [intros k; rewrite Hmap; apply Hkeys|].
  split; [|split].
  - intros p Hp. apply in_map_iff in Hp. destruct Hp as ([k p'] & <- & Hin). simpl.
    destruct (Hent k p' Hin) as (H1 & H2 & H3). rewrite H2. auto.
  - intros Hlow (c & n & l & Hc & Hn & Hl & Hs) Hnil.
    assert (Hk : In (py_lower (strip l)) (map fst seen)).
    { apply Hkeys. split; [apply Hlow, Hs|].
      exists (mkRow l (note_transcript n) (note_segment_number n) (note_memo n)).
      split; [apply flatten_in; exists c, n, l; auto|reflexivity]. }
    rewrite <- Hmap, Hnil in Hk. contradiction.
  - rewrite <- (length_map (pattern_key py_lower)), Hmap, <- length_concat_map.
    apply NoDup_incl_length; [apply NoDup_ListNoDup, Hnd|].
    intros k Hk. apply Hkeys in Hk. destruct Hk as [Hne (r & Hr & <-)].
    apply flatten_in in Hr. destruct Hr as (c & n & l & Hc & Hn & Hl & ->).
    apply in_concat. exists (coder_keys py_lower c). split; [apply in_map_iff; eauto|].
    apply coder_keys_in with n; assumption.
Qed.

End SynthFacts.

Module WordLimitFacts.
Import PyStrFacts TrimFacts WordLimit.

Lemma word_ends_bounds i b s e :
  e ∈ word_ends i b s -> (i <= e <= i + length s)%nat.
Proof.
  revert i b. induction s as [|c r IH]; intros i b; simpl.
  - destruct b; [intros H; apply list_elem_of_singleton in H; lia|intros H; inversion H].
  - destruct (is_space c); [destruct b|]; intros H;
      [apply elem_of_cons in H as [->|H]; [lia|]|..]; apply IH in H; lia.
Qed.

Lemma word_ends_sorted i b s : StronglySorted lt (word_ends i b s).
Proof.
  revert i b. induction s as [|c r IH]; intros i b; simpl.
  - destruct b; repeat constructor.
  - destruct (is_space c); [destruct b|]; [|apply IH|apply IH].
    constructor; [apply IH|]. apply Forall_forall. intros x Hx.
    apply word_ends_bounds in Hx. lia.
Qed.

Lemma word_end_char i b s e :
  e ∈ word_ends i b s ->
  (e = i /\ b = true) \/ ((i < e)%nat /\ exists c, s !! (e - S i)%nat = Some c /\ is_space c = false).
Proof.
  revert i b. induction s as [|c r IH]; intros i b; simpl.
  - destruct b; [intros H; apply list_elem_of_singleton in H; auto|intros H; inversion H].
  - destruct (is_space c) eqn:Hc.
    + assert (Hr : e ∈ word_ends (S i) false r ->
                (i < e)%nat /\ exists c', (c :: r) !! (e - S i)%nat = Some c' /\ is_space c' = false).
      { intros H. destruct (IH _ _ H) as [[_ [=]]|[Hlt Hx]]. split; [lia|].
        replace (e - S i)%nat with (S (e - S (S i))) by lia. exact Hx. }
      destruct b; intros H; [apply elem_of_cons in H as [->|H]; [auto|]|]; right; apply Hr, H.
    + intros H. right. destruct (IH _ _ H) as [[-> _]|[Hlt Hx]].
      * split; [lia|]. exists c. rewrite Nat.sub_diag. auto.
      * split; [lia|]. replace (e - S i)%nat with (S (e - S (S i))) by lia. exact Hx.
Qed.

Lemma filter_le_all_gt (l : list nat) i :
  Forall (fun x => (i < x)%nat) l -> List.filter (fun e => e <=? i)%nat l = [].
Proof.
  induction 1 as [|x l Hx _ IH]; simpl; [reflexivity|].
  destruct (x <=? i)%nat eqn:E; [apply Nat.leb_le in E; lia|exact IH].
Qed.

Lemma word_ends_gt i b r : Forall (fun x => (i < x)%nat) (word_ends (S i) b r).
Proof. apply Forall_forall. intros x Hx. apply word_ends_bounds in Hx. lia. Qed.

Lemma word_ends_take s i b k :
  (i + k)%nat ∈ word_ends i b s ->
  word_ends i b (take k s) = List.filter (fun e => e <=? i + k)%nat (word_ends i b s).
Proof.
  revert i b k. induction s as [|c r IH]; intros i b k H.
  - rewrite take_nil. simpl. destruct b; simpl; [|reflexivity].
    replace (i <=? i + k)%nat with true by (symmetry; apply Nat.leb_le; lia). reflexivity.
  - destruct k as [|k].
    + rewrite Nat.add_0_r in H |- *. simpl in H |- *.
      destruct (is_space c), b; simpl.
      * rewrite Nat.leb_refl, filter_le_all_gt by apply word_ends_gt. reflexivity.
      * apply word_ends_bounds in H. lia.
      * apply word_ends_bounds in H. lia.
      * apply word_ends_bounds in H. lia.
    + simpl in H |- *. replace (i + S k)%nat with (S i + k)%nat in * by lia.
      destruct (is_space c), b; simpl.
      * apply elem_of_cons in H as [H|H]; [lia|].
        rewrite (proj2 (Nat.leb_le i _)) by lia.
        rewrite IH by exact H. reflexivity.
      * apply IH, H.
      * apply IH, H.
      * apply IH, H.
Qed.

Lemma sorted_filter_le (l : list nat) j e :
  StronglySorted lt l -> l !! j = Some e -> List.filter (fun x => x <=? e)%nat l = take (S j) l.
Proof.
  revert j. induction l as [|x l IH]; intros j Hs Hj; [discriminate|].
  inversion Hs as [|? ? Hs' Hf]; subst. simpl.
  destruct j as [|j].
  - injection Hj as ->. rewrite Nat.leb_refl, filter_le_all_gt; [reflexivity|exact Hf].
  - simpl in Hj. assert (Hlt : (x < e)%nat).
    { rewrite Forall_forall in Hf. apply Hf. eapply list_elem_of_lookup_2; eauto. }
    replace (x <=? e)%nat with true by (symmetry; apply Nat.leb_le; lia).
    rewrite (IH j Hs' Hj). reflexivity.
Qed.

Lemma enforce_cut text limit e :
  (0 < limit)%Z -> words text !! Z.to_nat (limit - 1) = Some e ->
  rstrip (take e text) = take e text
  /\ words (take e text) = take (Z.to_nat limit) (words text).
Proof.
  intros Hl He. assert (Hin : e ∈ words text) by (eapply list_elem_of_lookup_2; eauto).
  split.
  - destruct (word_end_char 0 false text e Hin) as [[_ [=]]|[Hlt (c & Hc & Hsp)]].
    apply rstrip_id. replace e with (S (e - 1)) by lia.
    rewrite (take_S_r text (e - 1) c) by (rewrite Nat.sub_1_r in Hc |- *; exact Hc).
    apply last_ok_snoc, Hsp.
  - unfold words. pose proof (word_ends_take text 0 false e Hin) as Ht.
    cbn [Nat.add] in Ht. rewrite Ht.
    rewrite (sorted_filter_le _ _ e (word_ends_sorted 0 false text) He).
    f_equal. lia.
Qed.

Lemma enforce_word_limit_spec text limit :
  ((limit <= 0)%Z -> enforce_word_limit text limit = text)
  /\ (exists rest, text = enforce_word_limit text limit ++ rest)
  /\ ((0 < limit)%Z -> words (enforce_word_limit text limit) = take (Z.to_nat limit) (words text))
  /\ ((Z.of_nat (length (words text)) <= limit)%Z -> enforce_word_limit text limit = text).
Proof.
  unfold enforce_word_limit.
  destruct (limit <=? 0)%Z eqn:Hle.
  - apply Z.leb_le in Hle. split; [auto|]. split; [exists []; rewrite app_nil_r; reflexivity|].
    split; [lia|auto].
  - apply Z.leb_gt in Hle.
    destruct (Z.of_nat (length (words text)) <=? limit)%Z eqn:Hc.
    + apply Z.leb_le in Hc. split; [lia|]. split; [exists []; rewrite app_nil_r; reflexivity|].
      split; [|auto]. intros _. rewrite take_ge; [reflexivity|lia].
    + apply Z.leb_gt in Hc.
      destruct (words text !! Z.to_nat (limit - 1)) as [e|] eqn:He.
      * destruct (enforce_cut text limit e Hle He) as [Hr Hw]. rewrite Hr.
        split; [lia|]. split; [exists (drop e text); symmetry; apply take_drop|].
        split; [auto|lia].
      * apply lookup_ge_None in He. lia.
Qed.

End WordLimitFacts.

Module ChunksFacts.
Import Chunks.

Lemma range_step_chunks {A} (items : list A) fuel i n :
  (0 < n)%nat -> (length items - i <= fuel)%nat ->
  concat (map (fun j => take n (drop j items)) (range_step fuel i (length items) n)) = drop i items.
Proof.
  intros Hn. revert i. induction fuel as [|f IH]; intros i Hf; simpl.
  - rewrite drop_ge by lia. reflexivity.
  - destruct (i <? length items)%nat eqn:E.
    + apply Nat.ltb_lt in E. simpl. rewrite IH by lia.
      rewrite <- drop_drop. apply take_drop.
    + apply Nat.ltb_ge in E. rewrite drop_ge by lia. reflexivity.
Qed.

Lemma range_step_chunk_shape {A} (items : list A) fuel i n c :
  (0 < n)%nat ->
  In c (map (fun j => take n (drop j items)) (range_step fuel i (length items) n)) ->
  c <> [] /\ (length c <= n)%nat.
Proof.
  intros Hn. revert i. induction fuel as [|f IH]; intros i; simpl; [intros []|].
  destruct (i <? length items)%nat eqn:E; [|intros []].
  apply Nat.ltb_lt in E. simpl. intros [<-|H]; [|eauto].
  rewrite length_take. split; [|lia].
  intros Hnil. apply (f_equal (@length A)) in Hnil. rewrite length_take, length_drop in Hnil.
  simpl in Hnil. lia.
Qed.

Lemma range_step_length fuel i m n :
  (0 < n)%nat -> (m - i <= fuel * n)%nat ->
  length (range_step fuel i m n) = ((m - i + n - 1) / n)%nat.
Proof.
  intros Hn. revert i. induction fuel as [|f IH]; intros i Hf; simpl.
  - replace (m - i)%nat with 0%nat by lia. rewrite Nat.add_0_l. symmetry.
    apply Nat.div_small. lia.
  - destruct (i <? m)%nat eqn:E.
    + apply Nat.ltb_lt in E. simpl. rewrite IH by lia.
      destruct (decide (i + n < m)%nat).
      * replace (m - i + n - 1)%nat with ((m - (i + n) + n - 1) + 1 * n)%nat by lia.
        rewrite Nat.div_add by lia. lia.
      * replace (m - (i + n))%nat with 0%nat by lia.
        rewrite (Nat.div_small (0 + n - 1)) by lia.
        apply (Nat.div_unique _ _ _ (m - i - 1)); lia.
    + apply Nat.ltb_ge in E. replace (m - i)%nat with 0%nat by lia. rewrite Nat.add_0_l.
      symmetry. apply Nat.div_small. lia.
Qed.

End ChunksFacts.

Module SDKRunFacts.
Import SDK SDKInputs.

Lemma bind_run {A B} (m : M A) (k : A -> M B) s :
  (m ≫= k) s = match m s with
               | (inl e, s') => (inl e, s')
               | (inr a, s') => k a s'
               end.
Proof. reflexivity. Qed.

Lemma chat_loop_S backend loads k user hint s :
  chat_loop backend loads (S k) user hint s =
  match chat_attempt backend loads user s with
  | (inl e, s') => (inl e, s')
  | (inr (Some v), s') => (inr (Some v), s')
  | (inr None, s') => chat_loop backend loads k (user ++ retry_suffix hint) hint s'
  end.
Proof. simpl. rewrite bind_run. destruct (chat_attempt _ _ _ _) as [[e|[v|]] s']; reflexivity. Qed.

Lemma run_json_chat backend loads user hint attempts s :
  run_json backend loads ChatOnly user hint attempts s =
  match chat_loop backend loads (Z.to_nat (Z.max 1 attempts)) user hint s with
  | (inl e, s') => (inl e, s')
  | (inr r, s') => (inr (match r with Some v => v | None => JObj [] end), s')
  end.
Proof.
  unfold run_json. rewrite bind_run. cbn [ret]. rewrite bind_run.
  destruct (chat_loop _ _ _ _ _ _) as [[e|r] s']; reflexivity.
Qed.

Lemma run_json_agents backend loads user hint attempts s :
  run_json backend loads WithAgents user hint attempts s =
  match agents_path backend loads user s with
  | (inl e, s') => (inl e, s')
  | (inr (Some v), s') => (inr v, s')
  | (inr None, s') => run_json backend loads ChatOnly user hint attempts s'
  end.
Proof.
  unfold run_json at 1. rewrite bind_run. destruct (agents_path _ _ _ _) as [[e|[v|]] s']; reflexivity.
Qed.

Lemma attempts_pos attempts : exists k, Z.to_nat (Z.max 1 attempts) = S k.
Proof. exists (Z.to_nat (Z.max 1 attempts) - 1)%nat. lia. Qed.

Section Raising.
Variable msg : nat -> pystr.
Variable loads : pystr -> option json.

Lemma chat_attempt_raising user s :
  chat_attempt (raising_backend msg) loads user s
  = (inr None, mkState (S (S (calls s))) (Some (u "chat path error: " ++ msg (S (calls s))))
                       (last_raw s)).
Proof. reflexivity. Qed.

Lemma agents_path_raising user s :
  agents_path (raising_backend msg) loads user s
  = (inr None, mkState (S (S (calls s))) (Some (u "agents/chat path error: " ++ msg (S (calls s))))
                       (last_raw s)).
Proof. reflexivity. Qed.

Lemma chat_loop_raising k user hint s :
  chat_loop (raising_backend msg) loads (S k) user hint s
  = (inr None, mkState (calls s + 2 * S k)
                       (Some (u "chat path error: " ++ msg (calls s + 2 * S k - 1)%nat))
                       (last_raw s)).
Proof.
  revert user s. induction k as [|k IH]; intros user s; rewrite chat_loop_S, chat_attempt_raising.
  - cbn [chat_loop ret calls last_raw].
    replace (calls s + 2 * 1)%nat with (S (S (calls s))) by lia.
    replace (S (S (calls s)) - 1)%nat with (S (calls s)) by lia. reflexivity.
  - rewrite IH. cbn [calls last_raw].
    replace (S (S (calls s)) + 2 * S k)%nat with (calls s + 2 * S (S k))%nat by lia. reflexivity.
Qed.

End Raising.

Section Blank.
Variable b : nat -> pystr.
Variable loads : pystr -> option json.
Hypothesis Hb : forall n, strip (b n) = [].

Lemma chat_attempt_blank user s :
  chat_attempt (content_backend b) loads user s
  = (inr None, mkState (S (calls s)) (last_error s) (Some (b (calls s)))).
Proof.
  unfold chat_attempt. cbv [catch mbind M_bind bind create set_raw content_backend].
  cbn [calls last_error last_raw]. rewrite Hb. reflexivity.
Qed.

Lemma chat_loop_blank k user hint s :
  chat_loop (content_backend b) loads (S k) user hint s
  = (inr None, mkState (calls s + S k) (last_error s) (Some (b (calls s + S k - 1)%nat))).
Proof.
  revert user s. induction k as [|k IH]; intros user s; rewrite chat_loop_S, chat_attempt_blank.
  - cbn [chat_loop ret calls last_error].
    replace (calls s + 1)%nat with (S (calls s)) by lia.
    replace (S (calls s) - 1)%nat with (calls s) by lia. reflexivity.
  - rewrite IH. cbn [calls last_error].
    replace (S (calls s) + S k)%nat with (calls s + S (S k))%nat by lia. reflexivity.
Qed.

End Blank.

End SDKRunFacts.

Module IncidentMoreFacts.
Import PyStrFacts Incident IncidentFacts.

Lemma has_labels_nonempty ns : negb (null ns) && has_labels ns = has_labels ns.
Proof. destruct ns; reflexivity. Qed.

(** The calls of one segment: one when the first reply has a label, two
    otherwise; nothing is merged when the second reply is empty too. *)
Lemma process_segment_windows f st seg :
  length (windows (process_segment f st seg))
  = (length (windows st)
     + if has_labels (f (length (windows st)) seg (py_tail 20 (prior st))) then 1 else 2)%nat.
Proof.
  unfold process_segment, incident_call. cbn [imap prior windows].
  rewrite has_labels_nonempty.
  destruct (has_labels _) eqn:E.
  - destruct (f _ _ _) as [|a l]; [discriminate|].
    destruct (fold_left _ _ _) as [M P]. cbn [windows]. rewrite length_app. reflexivity.
  - destruct (f (length (windows st ++ _)) seg _) as [|a l].
    + cbn [windows]. rewrite !length_app. simpl. lia.
    + destruct (fold_left _ _ _) as [M P]. cbn [windows]. rewrite !length_app. simpl. lia.
Qed.

Lemma process_segment_empty f st seg :
  (forall n w, f n seg w = []) ->
  imap (process_segment f st seg) = imap st /\ prior (process_segment f st seg) = prior st.
Proof.
  intros H. unfold process_segment, incident_call. cbn [imap prior windows].
  rewrite !H. split; reflexivity.
Qed.

Lemma loop_windows_bounds f segs st :
  (length (windows st) + length segs <= length (windows (fold_left (process_segment f) segs st))
   <= length (windows st) + 2 * length segs)%nat.
Proof.
  revert st. induction segs as [|seg segs IH]; intros st; simpl; [lia|].
  specialize (IH (process_segment f st seg)). rewrite process_segment_windows in IH.
  destruct (has_labels _); lia.
Qed.

Lemma loop_windows_labelled f segs st :
  (forall n seg w, has_labels (f n seg w) = true) ->
  length (windows (fold_left (process_segment f) segs st)) = (length (windows st) + length segs)%nat.
Proof.
  intros H. revert st. induction segs as [|seg segs IH]; intros st; simpl; [lia|].
  rewrite IH, process_segment_windows, H. lia.
Qed.

Lemma loop_windows_empty f segs st :
  (forall n seg w, f n seg w = []) ->
  length (windows (fold_left (process_segment f) segs st)) = (length (windows st) + 2 * length segs)%nat
  /\ imap (fold_left (process_segment f) segs st) = imap st.
Proof.
  intros H. revert st. induction segs as [|seg segs IH]; intros st; simpl; [split; [lia|reflexivity]|].
  destruct (IH (process_segment f st seg)) as [IH1 IH2].
  rewrite IH1, IH2, process_segment_windows, H. split; [simpl; lia|].
  apply (process_segment_empty f st seg). intros; apply H.
Qed.

(** A label as the loop stores it: non-empty and stripped. *)
Definition label_ok (l : pystr) : Prop := l <> [] /\ strip l = l.

Lemma clean_labels_ok ls : Forall label_ok (clean_labels ls).
Proof.
  apply Forall_forall. intros l Hl. unfold clean_labels in Hl.
  apply list_elem_of_In, filter_In in Hl as [Hm Hn]. apply in_map_iff in Hm as [x [<- _]].
  split; [intros E; rewrite E in Hn; discriminate|apply strip_idem].
Qed.

Section Clean.
Variable ks : list (pystr * Z).

Definition prior_ok (p : prior_entry) : Prop :=
  label_ok (pr_label p) /\ (pr_transcript p, pr_segment_number p) ∈ ks.

Definition map_ok (M : incident_map) : Prop :=
  forall k n, M !! k = Some n -> Forall label_ok (note_labels n).

Lemma merge_note_ok seg acc n :
  seg_key seg ∈ ks -> map_ok (fst acc) -> Forall prior_ok (snd acc) ->
  map_ok (fst (merge_note seg acc n)) /\ Forall prior_ok (snd (merge_note seg acc n)).
Proof.
  intros Hs HM HP. split.
  - intros k m. destruct (merge_note_shape seg acc n) as [->| ->]; [apply HM|].
    rewrite lookup_insert_Some. intros [[_ <-]|[_ Hk]]; [apply clean_labels_ok|eauto].
  - unfold merge_note. cbn [snd]. apply Forall_app. split; [exact HP|].
    apply Forall_forall. intros p Hp. apply list_elem_of_In, in_map_iff in Hp as [l [<- Hl]].
    rewrite <- list_elem_of_In in Hl. split; [|exact Hs]. cbn [pr_label].
    exact (proj1 (Forall_forall _ _) (clean_labels_ok (note_labels n)) l Hl).
Qed.

Lemma fold_merge_ok seg notes acc :
  seg_key seg ∈ ks -> map_ok (fst acc) -> Forall prior_ok (snd acc) ->
  map_ok (fst (fold_left (merge_note seg) notes acc))
  /\ Forall prior_ok (snd (fold_left (merge_note seg) notes acc)).
Proof.
  intros Hs. revert acc. induction notes as [|n ns IH]; intros acc HM HP; simpl; [auto|].
  destruct (merge_note_ok seg acc n Hs HM HP). apply IH; assumption.
Qed.

Lemma process_segment_ok f st seg :
  seg_key seg ∈ ks -> map_ok (imap st) -> Forall prior_ok (prior st) ->
  map_ok (imap (process_segment f st seg)) /\ Forall prior_ok (prior (process_segment f st seg)).
Proof.
  intros Hs HM HP.
  destruct (process_segment_cases f st seg) as (j & notes & _ & _ & [[-> ->]|(M & P & Ef & -> & ->)]);
    [auto|].
  destruct (fold_merge_ok seg notes (imap st, prior st) Hs HM HP) as [H1 H2].
  rewrite Ef in H1, H2. cbn [fst snd] in H1, H2. split; [exact H1|].
  destruct (60 <? length P)%nat; [|exact H2]. unfold py_tail. apply Forall_drop. exact H2.
Qed.

Lemma loop_ok f segs st :
  Forall (fun seg => seg_key seg ∈ ks) segs -> map_ok (imap st) -> Forall prior_ok (prior st) ->
  map_ok (imap (fold_left (process_segment f) segs st))
  /\ Forall prior_ok (prior (fold_left (process_segment f) segs st)).
Proof.
  revert st. induction segs as [|seg segs IH]; intros st Hf HM HP; simpl; [auto|].
  inversion Hf as [|? ? Hseg Hsegs]; subst.
  destruct (process_segment_ok f st seg Hseg HM HP) as [HM' HP']. auto.
Qed.

Lemma loop_windows_ok f segs st :
  Forall (fun seg => seg_key seg ∈ ks) segs -> map_ok (imap st) -> Forall prior_ok (prior st) ->
  Forall (Forall prior_ok) (windows st) ->
  Forall (Forall prior_ok) (windows (fold_left (process_segment f) segs st)).
Proof.
  revert st. induction segs as [|seg segs IH]; intros st Hf HM HP HW; simpl; [auto|].
  inversion Hf as [|? ? Hseg Hsegs]; subst.
  destruct (process_segment_ok f st seg Hseg HM HP) as [HM' HP'].
  apply IH; auto.
  destruct (process_segment_cases f st seg) as (j & notes & _ & -> & _).
  apply Forall_app. split; [exact HW|]. apply Forall_replicate.
  unfold py_tail. apply Forall_drop. exact HP.
Qed.

End Clean.

Lemma order_records_empty segs : order_records segs ∅ = [].
Proof.
  unfold order_records. induction (map seg_key segs) as [|k ks IH]; simpl; [reflexivity|].
  rewrite lookup_empty. exact IH.
Qed.

End IncidentMoreFacts.

Module ConfigFacts.
Import Config.

Lemma tier_preset_dom x p : tier_preset x = Some p -> (1 <= x <= 5)%Z.
Proof.
  intros H. destruct x as [|q|q]; try discriminate.
  do 3 (try match goal with q : positive |- _ => destruct q end); try discriminate; lia.
Qed.

Lemma tier_preset_some x : (1 <= x <= 5)%Z ->
  exists bs bo, tier_preset x = Some (bs, bo) /\ (0 < bs)%Z /\ (0 < bo)%Z.
Proof.
  intros H. assert (x = 1 \/ x = 2 \/ x = 3 \/ x = 4 \/ x = 5)%Z as [->|[->|[->|[->| ->]]]] by lia;
    do 2 eexists; (split; [reflexivity|lia]).
Qed.

Lemma sanitize_tier_spec x :
  sanitize_tier x = (if ((1 <=? x) && (x <=? 5))%Z then x else 1%Z).
Proof.
  unfold sanitize_tier. destruct (tier_preset x) as [p|] eqn:E.
  - apply tier_preset_dom in E. destruct ((1 <=? x) && (x <=? 5))%Z eqn:F; [reflexivity|lia].
  - destruct ((1 <=? x) && (x <=? 5))%Z eqn:F; [|reflexivity].
    destruct (tier_preset_some x ltac:(lia)) as (bs & bo & E' & _). congruence.
Qed.

Lemma sanitize_concurrency_pos py_int v fb : (0 < fb)%Z -> (0 < sanitize_concurrency py_int v fb)%Z.
Proof.
  intros H. unfold sanitize_concurrency. destruct v as [v|]; [|exact H].
  destruct (py_int v) as [z|]; [|exact H]. destruct (0 <? z)%Z eqn:E; [lia|exact H].
Qed.

End ConfigFacts.

Module AppFacts.
Import PyStrFacts WordLimit WordLimitFacts App.

Lemma enforce_word_limit_stripped t l :
  strip t = t -> strip (enforce_word_limit t l) = enforce_word_limit t l.
Proof.
  intros Ht. unfold enforce_word_limit.
  destruct (l <=? 0)%Z; [exact Ht|].
  destruct (Z.of_nat (length (words t)) <=? l)%Z; [exact Ht|].
  destruct (words t !! Z.to_nat (l - 1)) as [c|]; [|exact Ht].
  apply strip_id; [|apply rstrip_last_ok].
  apply rstrip_head_ok, TrimFacts.head_ok_take. rewrite <- Ht. apply strip_head_ok.
Qed.

Lemma start_text_spec t :
  strip (enforce_word_limit (strip t) 1000) = enforce_word_limit (strip t) 1000
  /\ words (enforce_word_limit (strip t) 1000) = take 1000 (words (strip t))
  /\ (length (words (enforce_word_limit (strip t) 1000)) <= 1000)%nat.
Proof.
  split; [apply enforce_word_limit_stripped, strip_idem|].
  destruct (enforce_word_limit_spec (strip t) 1000) as (_ & _ & H & _).
  rewrite H by lia. split; [reflexivity|]. rewrite length_take. lia.
Qed.

Lemma lstrip_dash_suffix s : exists k, s = k ++ lstrip_dash s.
Proof.
  induction s as [|c r [k Hk]]; [exists []; reflexivity|]. simpl.
  destruct (c =? 45) eqn:E.
  - exists (c :: k). simpl. rewrite <- Hk. reflexivity.
  - exists []. reflexivity.
Qed.

Lemma lstrip_dash_head s r : lstrip_dash s <> 45 :: r.
Proof.
  induction s as [|c s IH]; simpl; [discriminate|].
  destruct (c =? 45) eqn:E; [exact IH|].
  intros F. injection F as -> _. discriminate.
Qed.

Lemma in_suffix {A} (x : A) k m : In x m -> In x (k ++ m).
Proof. intros H. apply in_or_app. right. exact H. Qed.

Lemma strip_dash_in s x : In x (strip_dash s) -> In x s.
Proof.
  unfold strip_dash. rewrite <- in_rev. intros H.
  destruct (lstrip_dash_suffix (rev (lstrip_dash s))) as [k Hk].
  assert (H1 : In x (rev (lstrip_dash s))) by (rewrite Hk; apply in_suffix; exact H).
  rewrite <- in_rev in H1.
  destruct (lstrip_dash_suffix s) as [k' Hk']. rewrite Hk'. apply in_suffix. exact H1.
Qed.

Lemma strip_dash_last s r : strip_dash s <> r ++ [45].
Proof.
  unfold strip_dash. intros E. apply (f_equal (@rev N)) in E.
  rewrite rev_involutive, rev_app_distr in E. simpl in E. exact (lstrip_dash_head _ _ E).
Qed.

Lemma strip_dash_first s r : strip_dash s <> 45 :: r.
Proof.
  unfold strip_dash. intros E. apply (f_equal (@rev N)) in E.
  rewrite rev_involutive in E. simpl in E.
  destruct (lstrip_dash_suffix (rev (lstrip_dash s))) as [k Hk].
  rewrite E in Hk. apply (f_equal (@rev N)) in Hk. rewrite rev_involutive in Hk.
  rewrite app_assoc, rev_app_distr in Hk. simpl in Hk.
  exact (lstrip_dash_head _ _ Hk).
Qed.

Definition name_char (isalnum : N -> bool) (c : N) : Prop :=
  isalnum c = true \/ c = 45 \/ c = 95 \/ c = 46.

Lemma safe_stem_spec isalnum stem :
  safe_stem isalnum stem <> []
  /\ (forall r, safe_stem isalnum stem <> 45 :: r)
  /\ (forall r, safe_stem isalnum stem <> r ++ [45])
  /\ (safe_stem isalnum stem = u "file" \/ Forall (name_char isalnum) (safe_stem isalnum stem)).
Proof.
  unfold safe_stem. destruct (strip_dash (map (sanitize_char isalnum) stem)) as [|c r] eqn:E.
  - split; [discriminate|]. split; [intros r' F; discriminate F|].
    split; [|left; reflexivity].
    intros r' F. apply (f_equal (@rev N)) in F. rewrite rev_app_distr in F. discriminate F.
  - rewrite <- E. split; [rewrite E; discriminate|].
    split; [apply strip_dash_first|]. split; [apply strip_dash_last|].
    right. apply Forall_forall. intros x Hx. apply list_elem_of_In, strip_dash_in in Hx.
    apply in_map_iff in Hx as [c0 [<- _]]. unfold sanitize_char, name_char.
    destruct (isalnum c0 || (c0 =? 45) || (c0 =? 95) || (c0 =? 46)) eqn:B; [|right; left; reflexivity].
    rewrite !orb_true_iff, !N.eqb_eq in B. tauto.
Qed.

Lemma allowed_exts_no_slash ext : ext ∈ allowed_exts -> 47 ∉ ext.
Proof.
  intros He Hs. apply list_elem_of_In in He. apply list_elem_of_In in Hs.
  simpl in He. destruct He as [<-|[<-|[<-|[]]]]; simpl in Hs; lia.
Qed.

Lemma sanitize_space isalnum : isalnum 32 = false -> sanitize_char isalnum 32 = sanitize_char isalnum 45.
Proof. intros H. unfold sanitize_char. rewrite H. destruct (isalnum 45); reflexivity. Qed.

End AppFacts.

Module SegMapsFacts.
Import Incident SegMaps.

Fixpoint digits_val (s : pystr) (acc : N) : N :=
  match s with
  | [] => acc
  | d :: r => digits_val r (acc * 10 + (d - 48))
  end.

Lemma digits_val_app a b acc : digits_val (a ++ b) acc = digits_val b (digits_val a acc).
Proof. revert acc. induction a as [|d a IH]; intros acc; simpl; auto. Qed.

Lemma digits_N_app fuel n acc : digits_N fuel n acc = digits_N fuel n [] ++ acc.
Proof.
  revert n acc. induction fuel as [|f IH]; intros n acc; simpl; [reflexivity|].
  destruct (n <? 10); [reflexivity|].
  rewrite (IH _ (_ :: acc)), (IH _ [_]), <- app_assoc. reflexivity.
Qed.

Lemma digits_N_val fuel n :
  (N.to_nat n <= fuel)%nat \/ (n < 10)%N -> digits_val (digits_N fuel n []) 0 = n.
Proof.
  revert n. induction fuel as [|f IH]; intros n Hn; simpl.
  - assert (Hlt : (n < 10)%N) by lia. rewrite N.mod_small by exact Hlt. lia.
  - destruct (n <? 10)%N eqn:E; [simpl; lia|]. apply N.ltb_ge in E.
    rewrite digits_N_app, digits_val_app, IH.
    + cbn [digits_val]. rewrite (N.add_comm 48), N.add_sub, N.mul_comm.
      symmetry. apply N.div_mod. lia.
    + left. assert (Hd : (n / 10 < n)%N) by (apply N.div_lt; lia).
      destruct Hn as [Hn|Hn]; lia.
Qed.

Lemma digits_N_head fuel n acc : exists d r, digits_N fuel n acc = (48 + d) :: r.
Proof.
  revert n acc. induction fuel as [|f IH]; intros n acc; simpl; [eauto|].
  destruct (n <? 10); [eauto|apply IH].
Qed.

Lemma str_of_pos_val p : digits_val (digits_N (Pos.to_nat p) (Npos p) []) 0 = Npos p.
Proof. apply digits_N_val. left. simpl. lia. Qed.

Lemma str_of_Z_inj a b : str_of_Z a = str_of_Z b -> a = b.
Proof.
  intros E. destruct a as [|p|p], b as [|q|q]; simpl in E; try reflexivity.
  - apply (f_equal (fun s => digits_val s 0)) in E. rewrite str_of_pos_val in E. discriminate.
  - discriminate.
  - apply (f_equal (fun s => digits_val s 0)) in E. rewrite str_of_pos_val in E. discriminate.
  - apply (f_equal (fun s => digits_val s 0)) in E. rewrite !str_of_pos_val in E. congruence.
  - destruct (digits_N_head (Pos.to_nat p) (Npos p) []) as (d & r & Hd). rewrite Hd in E.
    injection E as E _. lia.
  - discriminate.
  - destruct (digits_N_head (Pos.to_nat q) (Npos q) []) as (d & r & Hd). rewrite Hd in E.
    injection E as E _. lia.
  - injection E as E. apply (f_equal (fun s => digits_val s 0)) in E.
    rewrite !str_of_pos_val in E. congruence.
Qed.

Lemma last_such_snoc p l x :
  last_such p (l ++ [x]) = if p x then Some x else last_such p l.
Proof. unfold last_such. rewrite fold_left_app. reflexivity. Qed.

Lemma build_segment_maps_snoc l x :
  build_segment_maps (l ++ [x]) = build_step (build_segment_maps l) x.
Proof. unfold build_segment_maps. rewrite fold_left_app. reflexivity. Qed.

Lemma build_by_key segs k :
  fst (build_segment_maps segs) !! k
  = (fun s => (seg_text s, seg_text s)) <$> last_such (fun s => bool_decide (seg_key s = k)) segs.
Proof.
  induction segs as [|x l IH] using rev_ind; [apply lookup_empty|].
  rewrite build_segment_maps_snoc, last_such_snoc. unfold build_step. cbn [fst].
  case_bool_decide as Hk.
  - rewrite <- Hk. apply lookup_insert_eq.
  - rewrite lookup_insert_ne by (intros E; apply Hk; exact E). exact IH.
Qed.

Lemma build_per_tx segs t key :
  (snd (build_segment_maps segs) !! t ≫= (fun m => m !! key))
  = seg_text <$> last_such (fun s => bool_decide (seg_transcript s = t /\ str_of_Z (seg_number s) = key)) segs.
Proof.
  induction segs as [|x l IH] using rev_ind; [reflexivity|].
  rewrite build_segment_maps_snoc, last_such_snoc. unfold build_step. cbn [snd].
  destruct (decide (seg_transcript x = t)) as [Ht|Ht].
  - subst t. rewrite lookup_insert_eq. cbn [mbind option_bind].
    destruct (decide (str_of_Z (seg_number x) = key)) as [Hn|Hn].
    + rewrite bool_decide_true by auto. rewrite <- Hn, lookup_insert_eq. reflexivity.
    + rewrite bool_decide_false by tauto. rewrite lookup_insert_ne by exact Hn.
      rewrite <- IH. destruct (snd (build_segment_maps l) !! seg_transcript x); reflexivity.
  - rewrite bool_decide_false by tauto. rewrite lookup_insert_ne by exact Ht. exact IH.
Qed.

Lemma last_such_ext p q l : (forall s, p s = q s) -> last_such p l = last_such q l.
Proof.
  intros H. induction l as [|x l IH] using rev_ind; [reflexivity|].
  rewrite !last_such_snoc, H, IH. reflexivity.
Qed.

Lemma last_such_sat p l s : last_such p l = Some s -> p s = true.
Proof.
  induction l as [|x l IH] using rev_ind; [discriminate|].
  rewrite last_such_snoc. destruct (p x) eqn:E; [intros [= <-]; exact E|exact IH].
Qed.

End SegMapsFacts.

Module CodersFacts.
Import SegMapsFacts Coders.

Lemma dec_val_N s a : dec_val s (Z.of_N a) = Z.of_N (digits_val s a).
Proof.
  revert a. induction s as [|d r IH]; intros a; [reflexivity|].
  cbn [dec_val digits_val]. rewrite <- IH. f_equal. lia.
Qed.

Lemma digits_N_digits fuel n acc :
  Forall (fun c => 48 <= c <= 57) acc -> Forall (fun c => 48 <= c <= 57) (digits_N fuel n acc).
Proof.
  revert n acc. induction fuel as [|f IH]; intros n acc Hacc; simpl.
  - constructor; [|exact Hacc]. pose proof (N.mod_lt n 10 ltac:(lia)). revert H. generalize (n mod 10). intros; lia.
  - destruct (n <? 10) eqn:E.
    + apply N.ltb_lt in E. constructor; [lia|exact Hacc].
    + apply IH. constructor; [|exact Hacc]. pose proof (N.mod_lt n 10 ltac:(lia)). revert H. generalize (n mod 10). intros; lia.
Qed.

Lemma digits_no_marks l :
  Forall (fun c => 48 <= c <= 57) l ->
  existsb (fun c => (c =? 46) || (c =? 101) || (c =? 69)) l = false.
Proof.
  induction 1 as [|c l Hc _ IH]; [reflexivity|]. cbn [existsb]. rewrite IH.
  destruct (c =? 46) eqn:E1; [apply N.eqb_eq in E1; lia|].
  destruct (c =? 101) eqn:E2; [apply N.eqb_eq in E2; lia|].
  destruct (c =? 69) eqn:E3; [apply N.eqb_eq in E3; lia|]. reflexivity.
Qed.

(** [str(n)] is an integer lexeme, read back as [n]. *)
Lemma str_of_Z_int_lexeme n :
  is_int_lexeme (str_of_Z n) = true /\ int_lexeme_val (str_of_Z n) = n.
Proof.
  pose proof (fun p => digits_no_marks _ (digits_N_digits (Pos.to_nat p) (Npos p) [] (Forall_nil_2 _))) as Hd.
  destruct n as [|p|p]; unfold is_int_lexeme.
  - split; reflexivity.
  - cbn [str_of_Z]. rewrite Hd. split; [reflexivity|].
    destruct (digits_N_head (Pos.to_nat p) (Npos p) []) as (d & r & Hh).
    unfold int_lexeme_val. rewrite Hh.
    replace (48 + d =? 45) with false by (symmetry; apply N.eqb_neq; lia).
    rewrite <- Hh. change 0%Z with (Z.of_N 0). rewrite dec_val_N, str_of_pos_val. reflexivity.
  - cbn [str_of_Z existsb]. rewrite Hd. split; [reflexivity|].
    unfold int_lexeme_val. rewrite N.eqb_refl.
    change 0%Z with (Z.of_N 0). rewrite dec_val_N, str_of_pos_val. reflexivity.
Qed.

End CodersFacts.

(** * Claims *)
Module Claims.
Import PyStrFacts Trim TrimFacts TrimResult Flex FlexFacts SDK SDKInputs SDKFacts
  Incident IncidentInputs IncidentFacts Quotes QuotesFacts Synth SynthFacts Coders CodersFacts.

(** C9: for a positive limit, [_trim_to_sentences] returns a stripped
    substring of its input with at most [max_sentences] sentence enders
    (a [.], [!] or [?] followed by optional closing quotes or brackets and
    then whitespace, or by the end of the text); when the stripped input has
    no more enders than the limit it is returned unchanged. *)
Theorem trim_to_sentences_bounded (text : pystr) (max_sentences : Z) :
  (0 < max_sentences)%Z ->
  exists r, trim_to_sentences text max_sentences = Some r
    /\ substring_of r text /\ strip r = r
    /\ (Z.of_nat (length (enders r)) <= max_sentences)%Z
    /\ ((Z.of_nat (length (enders (strip text))) <= max_sentences)%Z -> r = strip text).
Proof.
  intros Hm.
  destruct (trim_result_exists text max_sentences Hm) as [r Hr].
  exists r. split; [exact Hr|]. split; [exact (trim_result_substring _ _ _ Hr)|].
  pose proof (strip_idem text) as Hidem. pose proof (strip_head_ok text) as Hh.
  revert Hr. unfold trim_to_sentences.
  destruct (strip text) as [|c0 t0] eqn:Ht.
  - intros [= <-]. split; [reflexivity|]. split; [simpl; lia|]. intros _; reflexivity.
  - destruct (enders (c0 :: t0)) as [|e0 es0] eqn:He.
    + intros [= <-]. split; [exact Hidem|]. rewrite He. split; [simpl; lia|].
      intros _; reflexivity.
    + destruct (Z.of_nat (length (e0 :: es0)) <=? max_sentences)%Z eqn:Hle.
      * apply Z.leb_le in Hle. intros [= <-]. rewrite He. auto.
      * apply Z.leb_gt in Hle. unfold py_index.
        destruct (0 <=? max_sentences - 1)%Z eqn:H0; [|apply Z.leb_gt in H0; lia].
        destruct ((e0 :: es0) !! Z.to_nat (max_sentences - 1)) as [e|] eqn:Hn;
          [|discriminate].
        intros [= <-]. rewrite <- He in Hn.
        destruct (cut_prefix (c0 :: t0) _ e Hh Hn) as [Hs Hc].
        change (take (S e) (c0 :: t0)) with (c0 :: take e t0) in Hs, Hc.
        rewrite Hs. split; [exact Hs|]. split; [lia|].
        intros Hle'. lia.
Qed.

(** C5 (as amended): [_parse_json_flexible] tries, in this order, (a) the
    stripped body of the first fence matching [```] or [```json] (any case)
    followed by a newline and closed by a newline and [```]; (b) the whole
    stripped text when it starts and ends with [{ }] or [[ ]]; (c) the span
    from the first [{] to the last [}]; (d) otherwise it yields the empty
    dict.  Prose plus a [```json] block yields the block's content, prose
    (without [{] or backticks) followed by an object yields the object, and a
    text no substring of which decodes yields the empty dict.  This holds for
    every decoder [loads]. *)
Theorem parse_json_flexible_fallback (loads : pystr -> option json) :
  (forall text b v, fence_search (strip text) = Some b -> loads (strip b) = Some v ->
     parse_json_flexible loads text = v)
  /\ (forall text v, fence_stage loads (strip text) = None ->
        direct_shape (strip text) = true -> loads (strip text) = Some v ->
        parse_json_flexible loads text = v)
  /\ (forall text v, fence_stage loads (strip text) = None ->
        direct_stage loads (strip text) = None -> brace_stage loads (strip text) = Some v ->
        parse_json_flexible loads text = v)
  /\ (forall text, fence_stage loads (strip text) = None ->
        direct_stage loads (strip text) = None -> brace_stage loads (strip text) = None ->
        parse_json_flexible loads text = JObj [])
  /\ (forall p b q v, no_char 96 p -> no_char 96 b -> loads (strip b) = Some v ->
        parse_json_flexible loads (p ++ u "```json" ++ [10] ++ b ++ fence_close ++ q) = v)
  /\ (forall p m v, no_char 96 p -> no_char 123 p ->
        fence_search (123 :: m ++ [125]) = None -> loads (123 :: m ++ [125]) = Some v ->
        parse_json_flexible loads (p ++ 123 :: m ++ [125]) = v)
  /\ (forall text, (forall sub, substring_of sub text -> loads sub = None) ->
        parse_json_flexible loads text = JObj []).
Proof.
  split; [|split; [|split; [|split; [|split; [|split]]]]].
  - intros text b v Hf Hv. destruct text as [|c r]; [discriminate|].
    rewrite parse_nonnil by discriminate. unfold fence_stage. rewrite Hf, Hv. reflexivity.
  - intros text v Hf Hd Hv. destruct text as [|c r]; [discriminate|].
    rewrite parse_nonnil by discriminate. rewrite Hf. unfold direct_stage.
    rewrite Hd, Hv. reflexivity.
  - intros text v Hf Hd Hb. destruct text as [|c r]; [discriminate|].
    rewrite parse_nonnil by discriminate. rewrite Hf, Hd, Hb. reflexivity.
  - intros text Hf Hd Hb. destruct text as [|c r]; [reflexivity|].
    rewrite parse_nonnil by discriminate. rewrite Hf, Hd, Hb. reflexivity.
  - intros p b q v. apply flex_fenced.
  - intros p m v. apply flex_trailing_object.
  - intros text. apply flex_no_json.
Qed.

(** C5 counterexample: a fenced block with another info string is not
    recognised; its body [[1]] decodes, yet the result is the empty dict. *)
Lemma parse_json_flexible_other_fence :
  json_loads (u "[1]") = Some (JArr [JNum (u "1")])
  /\ parse_json_flexible json_loads (u "```python" ++ [10] ++ u "[1]" ++ [10] ++ u "```")
     = JObj [].
Proof. split; vm_compute; reflexivity. Qed.

Lemma trim_to_sentences_bounded_witness :
  (0 < 3)%Z /\
  exists r, trim_to_sentences (u " A. B! C? D. ") 3 = Some r
    /\ substring_of r (u " A. B! C? D. ") /\ strip r = r
    /\ (Z.of_nat (length (enders r)) <= 3)%Z
    /\ ((Z.of_nat (length (enders (strip (u " A. B! C? D. ")))) <= 3)%Z ->
        r = strip (u " A. B! C? D. ")).
Proof. split; [lia|]. apply (trim_to_sentences_bounded (u " A. B! C? D. ") 3). lia. Defined.

(** C7 (as amended): one [run_json] call issues at most two backend
    requests per attempt (the [response_format] request and, when it
    raises, the plain fallback request), plus at most two more on the agents
    path; with no client it issues none.  The bound is
    [2 * max(1, attempts)] for a chat client and [2 + 2 * max(1, attempts)]
    with the agents wrapper. *)
Theorem run_json_call_bound backend loads md user hint attempts s :
  (calls (snd (run_json backend loads md user hint attempts s))
   <= calls s
      + (match md with WithAgents => 2 | _ => 0 end)
      + (match md with NoClient => 0 | _ => 2 * Z.to_nat (Z.max 1 attempts) end))%nat.
Proof.
  pose proof (run_json_calls backend loads md user hint attempts s). lia.
Qed.

(** C7 counterexample: with [attempts = 1], a request with
    [response_format] that raises followed by an empty fallback reply makes
    two backend calls, more than the configured one attempt. *)
Lemma run_json_two_calls_one_attempt :
  calls (snd (run_json backend_raise_then_empty json_loads ChatOnly (u "segment") None 1 s0))
  = 2%nat
  /\ (2 > Z.to_nat 1)%nat.
Proof. split; [vm_compute; reflexivity|simpl; lia]. Qed.

(** C6 (code bug): [run_json] is annotated to return a dict, and its
    fallback paths only return a value that is a non-empty dict, but the
    [response_format] path returns whatever [json.loads] decodes: a backend
    replying with the JSON array [[1]] makes [run_json] return a list, not a
    mapping.  (No exception escapes [run_json], see [run_json_no_raise], and
    [diagnostics] is a total function of the state.) *)
Theorem run_json_returns_non_mapping :
  fst (run_json backend_list_reply json_loads ChatOnly (u "segment") None 2 s0)
  = inr (JArr [JNum (u "1")])
  /\ (forall md user hint attempts s,
        exists v s', run_json backend_list_reply json_loads md user hint attempts s = (inr v, s')).
Proof.
  split; [vm_compute; reflexivity|].
  intros md user hint attempts s. apply run_json_no_raise.
Qed.

(** C1: the incident list of a coder lists, in the order of [all_segments],
    the retained note of every segment that has one: its keys are exactly the
    emitted segment keys present in the incident map, in emission order, and
    the map holds no other key.  This holds whatever the notes returned by
    [run_incident_coding], and also when the segments are processed (their
    results produced and merged) in any other order [proc]; the program itself
    is the case [proc = all_segments], i.e. [incident_stage]. *)
Theorem incident_records_in_emission_order
  (run_incident_coding : nat -> segment -> list prior_entry -> list note)
  (all_segments proc : list segment) :
  proc ≡ₚ all_segments ->
  let M := imap (incident_loop run_incident_coding proc) in
  map note_key (order_records all_segments M)
    = List.filter (fun k => bool_decide (is_Some (M !! k))) (map seg_key all_segments)
  /\ (forall k, is_Some (M !! k) -> k ∈ map seg_key all_segments)
  /\ (forall k n, M !! k = Some n -> note_key n = k)
  /\ map note_key (incident_stage run_incident_coding all_segments)
     = List.filter
         (fun k => bool_decide (is_Some (imap (incident_loop run_incident_coding all_segments) !! k)))
         (map seg_key all_segments).
Proof.
  intros Hp M.
  assert (Hwk : forall l, well_keyed (imap (incident_loop run_incident_coding l))).
  { intros l. apply loop_well_keyed, istate0_well_keyed. }
  split; [|split; [|split]].
  - apply order_records_keys, Hwk.
  - apply loop_keys_in; [apply segs_keys_in, Hp|apply istate0_keys_in].
  - apply Hwk.
  - apply order_records_keys, Hwk.
Qed.

Lemma incident_records_in_emission_order_witness :
  [seg_b; seg_a] ≡ₚ [seg_a; seg_b] /\
  map note_key (order_records [seg_a; seg_b] (imap (incident_loop label_every_segment [seg_b; seg_a])))
  = [seg_key seg_a; seg_key seg_b].
Proof.
  assert (Hp : [seg_b; seg_a] ≡ₚ [seg_a; seg_b]) by apply Permutation_swap.
  split; [exact Hp|].
  destruct (incident_records_in_emission_order label_every_segment _ _ Hp) as [H _].
  rewrite H. vm_compute. reflexivity.
Defined.

(** C2: merging a note never replaces an entry whose labels are non-empty;
    a labelled note replaces an absent or unlabelled entry of its segment key;
    and an entry labelled after some segments stays unchanged through all
    later segments of the stage.  The map holds at most one note per key by
    construction. *)
Theorem incident_merge_precedence
  (run_incident_coding : nat -> segment -> list prior_entry -> list note) :
  (forall seg acc n k old, fst acc !! k = Some old -> note_labels old <> [] ->
     fst (merge_note seg acc n) !! k = Some old)
  /\ (forall seg acc n, note_labels (clean_note seg n) <> [] ->
        (forall old, fst acc !! seg_key seg = Some old -> note_labels old = []) ->
        fst (merge_note seg acc n) !! seg_key seg = Some (clean_note seg n))
  /\ (forall segs1 segs2 k old,
        imap (incident_loop run_incident_coding segs1) !! k = Some old -> note_labels old <> [] ->
        imap (incident_loop run_incident_coding (segs1 ++ segs2)) !! k = Some old).
Proof.
  split; [|split].
  - apply merge_note_keeps_labeled.
  - apply merge_note_replaces.
  - intros segs1 segs2 k old Hk Hl. unfold incident_loop. rewrite fold_left_app.
    apply loop_keeps_labeled; assumption.
Qed.

(** C3: after every segment the prior-incident context holds at most 60
    entries; every call of [run_incident_coding] made so far was given at
    most 20 entries; and each segment makes one or two calls, each given
    the last 20 entries (the most recent ones) of the context at that point. *)
Theorem prior_context_bounded
  (run_incident_coding : nat -> segment -> list prior_entry -> list note) :
  (forall segs,
     (length (prior (incident_loop run_incident_coding segs)) <= 60)%nat
     /\ Forall (fun w => (length w <= 20)%nat) (windows (incident_loop run_incident_coding segs)))
  /\ (forall st seg, exists j, (j = 1 \/ j = 2)%nat /\
        windows (process_segment run_incident_coding st seg)
        = windows st ++ replicate j (py_tail 20 (prior st)))
  /\ (forall p : list prior_entry, exists q, p = q ++ py_tail 20 p
        /\ length (py_tail 20 p) = Nat.min 20 (length p)).
Proof.
  split; [|split].
  - intros segs. apply loop_bounds; simpl; auto with arith.
  - intros st seg. destruct (process_segment_cases run_incident_coding st seg)
      as (j & notes & Hj & Hw & _). eauto.
  - intros p. destruct (py_tail_suffix 20 p) as [q Hq]. exists q. split; [exact Hq|].
    apply py_tail_length.
Qed.

(** C4 (as amended): for every category the stage keeps at most 3
    supporting quotes, each non-empty after stripping and a substring of a
    quote the service returned for that category index (the last row with
    that index).  The retrieved contexts reach the quotes only through the
    service's reply: no quote is checked against them. *)
Theorem quote_stage_quotes_from_service
  (contexts : list (list pystr)) (service : list (list pystr) -> list quote_row) (ncats : nat) :
  exists cats, quote_stage contexts service ncats = Some cats /\ length cats = ncats /\
    forall idx qs, cats !! idx = Some qs ->
      (length qs <= 3)%nat /\
      forall q, In q qs -> q <> [] /\ strip q <> [] /\
        exists r q0, In r (service contexts) /\ fst r = Z.of_nat idx /\ In q0 (snd r)
          /\ substring_of q q0.
Proof.
  unfold quote_stage.
  destruct (mapM_total (fun idx => supporting_quotes (by_cat (service contexts)) (Z.of_nat idx))
              (seq 0 ncats)) as [cats [Hm Hf]].
  { intros x _. destruct (supporting_quotes_spec (by_cat (service contexts)) (Z.of_nat x))
      as [qs [H _]]. eauto. }
  exists cats. split; [exact Hm|]. split.
  { rewrite <- (Forall2_length _ _ _ Hf). apply length_seq. }
  intros idx qs Hidx.
  destruct (Forall2_lookup_r _ _ _ _ _ Hf Hidx) as (x & Hx & Hq).
  apply lookup_seq in Hx. destruct Hx as [-> _]. simpl in Hq.
  destruct (supporting_quotes_spec (by_cat (service contexts)) (Z.of_nat idx))
    as (qs' & Hq' & Hlen & Hall).
  rewrite Hq in Hq'. injection Hq' as <-. split; [exact Hlen|].
  intros q Hin. destruct (Hall q Hin) as (H1 & H2 & q0 & Hq0 & Hsub).
  split; [exact H1|]. split; [exact H2|].
  destruct (by_cat (service contexts) !! Z.of_nat idx) as [l|] eqn:El; [|contradiction].
  destruct (by_cat_lookup _ _ _ El) as (r & Hr & Hri & ->). simpl in Hq0.
  apply filter_In in Hq0. destruct Hq0 as [Hq0 _]. apply in_map_iff in Hq0.
  destruct Hq0 as (q1 & <- & Hq1).
  exists r, q1. repeat split; try assumption.
  eapply substring_trans; [exact Hsub|apply strip_substring].
Qed.

(** C4 counterexample: the service answers with a quote that occurs in no
    retrieved context, and the quote is kept. *)
Lemma quote_not_in_context :
  quote_stage [[u "alpha"]] service_unsupported_quote 1 = Some [[u "zzz"]]
  /\ ~ substring_of (u "zzz") (u "alpha").
Proof.
  split; [vm_compute; reflexivity|].
  intros (k1 & k2 & H).
  assert (Hin : existsb (N.eqb 122) (k1 ++ u "zzz" ++ k2) = true).
  { apply existsb_exists. exists 122. split; [|reflexivity].
    apply in_or_app. right. left. reflexivity. }
  rewrite <- H in Hin. vm_compute in Hin. discriminate.
Qed.





End Claims.

(** * Further properties of the code *)
Module Extras.
Import PyStr WordLimit WordLimitFacts Chunks ChunksFacts SDK SDKInputs SDKRunFacts Incident IncidentMoreFacts App.

(** [_enforce_word_limit] / [_limit_tokens]: a non-positive limit returns the
    text; otherwise the result is a prefix of the text whose words are the
    first [limit] words of the text, the text comes back unchanged when it has
    at most [limit] words, and applying the function twice is the same as
    applying it once. *)
Theorem enforce_word_limit_prefix text limit :
  ((limit <= 0)%Z -> enforce_word_limit text limit = text)
  /\ (exists rest, text = enforce_word_limit text limit ++ rest)
  /\ ((0 < limit)%Z -> words (enforce_word_limit text limit) = take (Z.to_nat limit) (words text))
  /\ ((Z.of_nat (length (words text)) <= limit)%Z -> enforce_word_limit text limit = text)
  /\ enforce_word_limit (enforce_word_limit text limit) limit = enforce_word_limit text limit.
Proof.
  destruct (enforce_word_limit_spec text limit) as (H1 & H2 & H3 & H4).
  split; [exact H1|]. split; [exact H2|]. split; [exact H3|]. split; [exact H4|].
  destruct (Z.le_gt_cases limit 0) as [Hle|Hgt].
  - rewrite (H1 Hle). exact (H1 Hle).
  - apply (proj2 (proj2 (proj2 (enforce_word_limit_spec (enforce_word_limit text limit) limit)))).
    rewrite (H3 Hgt), length_take. lia.
Qed.

(** [_iter_chunks]: a non-positive size gives the single chunk [items];
    a positive size splits the items into consecutive non-empty chunks of at
    most [size] items whose concatenation is the items, and there are
    ceil(len(items) / size) of them. *)
Theorem iter_chunks_partition {A} (items : list A) size :
  ((size <= 0)%Z -> iter_chunks items size = [items])
  /\ ((0 < size)%Z ->
      concat (iter_chunks items size) = items
      /\ (forall c, In c (iter_chunks items size) -> c <> [] /\ (Z.of_nat (length c) <= size)%Z)
      /\ length (iter_chunks items size)
         = ((length items + Z.to_nat size - 1) / Z.to_nat size)%nat).
Proof.
  unfold iter_chunks. split.
  - intros H. apply Z.leb_le in H. rewrite H. reflexivity.
  - intros H. assert (Hn : (0 < Z.to_nat size)%nat) by lia.
    destruct (size <=? 0)%Z eqn:E; [apply Z.leb_le in E; lia|].
    split; [|split].
    + rewrite range_step_chunks by lia. reflexivity.
    + intros c Hc. destruct (range_step_chunk_shape items _ _ _ c Hn Hc) as [Hne Hl].
      split; [exact Hne|lia].
    + rewrite length_map, range_step_length by nia. f_equal. lia.
Qed.

(** [AgentSDK.run_json] against a backend that raises on every request:
    without a client it returns the empty mapping at once; otherwise every
    attempt makes the [response_format] request and the plain fallback
    request (two calls each, plus two for the agents wrapper), the result is
    the empty mapping, the error left for [diagnostics()] is the chat-path
    error of the very last request and [last_raw] is untouched. *)
Theorem run_json_backend_always_raises msg loads md user hint attempts s :
  run_json (raising_backend msg) loads md user hint attempts s =
  match md with
  | NoClient => (inr (JObj []), s)
  | ChatOnly =>
      let n := (calls s + 2 * Z.to_nat (Z.max 1 attempts))%nat in
      (inr (JObj []), mkState n (Some (u "chat path error: " ++ msg (n - 1)%nat)) (last_raw s))
  | WithAgents =>
      let n := (calls s + 2 + 2 * Z.to_nat (Z.max 1 attempts))%nat in
      (inr (JObj []), mkState n (Some (u "chat path error: " ++ msg (n - 1)%nat)) (last_raw s))
  end.
Proof.
  destruct (attempts_pos attempts) as [k Hk]. destruct md.
  - reflexivity.
  - rewrite run_json_chat, Hk, chat_loop_raising. reflexivity.
  - rewrite run_json_agents, agents_path_raising, run_json_chat, Hk, chat_loop_raising.
    cbn [calls last_raw]. replace (S (S (calls s)))%nat with (calls s + 2)%nat by lia. reflexivity.
Qed.

(** [AgentSDK.run_json] with a chat client whose replies are all blank
    (empty or whitespace only): every one of the [max(1, attempts)]
    iterations makes exactly one request, nothing is decoded, the result is
    the empty mapping, [last_raw] is the last reply and [last_error] is left
    as it was. *)
Theorem run_json_blank_replies b loads user hint attempts s :
  (forall n, strip (b n) = []) ->
  run_json (content_backend b) loads ChatOnly user hint attempts s =
  (inr (JObj []),
   mkState (calls s + Z.to_nat (Z.max 1 attempts)) (last_error s)
           (Some (b (calls s + Z.to_nat (Z.max 1 attempts) - 1)%nat))).
Proof.
  intros Hb. destruct (attempts_pos attempts) as [k Hk].
  rewrite run_json_chat, Hk, chat_loop_blank by exact Hb. reflexivity.
Qed.

Lemma run_json_blank_replies_witness :
  (forall n, strip ((fun _ : nat => u "  ") n) = [])
  /\ run_json (content_backend (fun _ => u "  ")) json_loads ChatOnly [] None 2 s0
     = (inr (JObj []), mkState 2 None (Some (u "  "))).
Proof.
  split; [intros n; reflexivity|].
  apply (run_json_blank_replies (fun _ => u "  ") json_loads [] None 2 s0).
  intros n; reflexivity.
Defined.

(** [AgentSDK.run_json] with a client: when the first [response_format]
    reply is non-blank and decodes, its decoded value is returned after that
    single request (whatever it is, and whatever the attempts), [last_raw]
    is that reply and [last_error] keeps the value of an earlier call. *)
Theorem run_json_first_reply_decodes backend loads md user hint attempts s c v :
  md <> NoClient ->
  backend (calls s) true user = RContent c ->
  strip c <> [] ->
  loads c = Some v ->
  run_json backend loads md user hint attempts s
  = (inr v, mkState (S (calls s)) (last_error s) (Some c)).
Proof.
  intros Hmd Hb Hs Hl.
  assert (Hc : c <> []) by (intros ->; apply Hs; reflexivity).
  destruct md; [congruence| |].
  - rewrite run_json_chat. destruct (attempts_pos attempts) as [k Hk]. rewrite Hk, chat_loop_S.
    unfold chat_attempt. cbv [catch mbind M_bind bind create set_raw json_loads_m].
    rewrite Hb. cbn [calls last_error last_raw].
    destruct (strip c) as [|x r]; [congruence|]. rewrite Hl. reflexivity.
  - rewrite run_json_agents. unfold agents_path.
    cbv [catch mbind M_bind bind create set_raw json_loads_m].
    rewrite Hb. cbn [calls last_error last_raw].
    destruct c as [|x r]; [congruence|]. rewrite Hl. reflexivity.
Qed.

Lemma run_json_first_reply_decodes_witness :
  ChatOnly <> NoClient
  /\ content_backend (fun _ => uj "{'ok': true}") (calls s0) true [] = RContent (uj "{'ok': true}")
  /\ strip (uj "{'ok': true}") <> []
  /\ json_loads (uj "{'ok': true}") = Some (JObj [(u "ok", JBool true)])
  /\ run_json (content_backend (fun _ => uj "{'ok': true}")) json_loads ChatOnly [] None 2 s0
     = (inr (JObj [(u "ok", JBool true)]), mkState 1 None (Some (uj "{'ok': true}"))).
Proof.
  assert (H1 : ChatOnly <> NoClient) by discriminate.
  assert (H2 : content_backend (fun _ => uj "{'ok': true}") (calls s0) true []
               = RContent (uj "{'ok': true}")) by reflexivity.
  assert (H3 : strip (uj "{'ok': true}") <> []) by (vm_compute; discriminate).
  assert (H4 : json_loads (uj "{'ok': true}") = Some (JObj [(u "ok", JBool true)]))
    by (vm_compute; reflexivity).
  split; [exact H1|]. split; [exact H2|]. split; [exact H3|]. split; [exact H4|].
  exact (run_json_first_reply_decodes _ json_loads ChatOnly [] None 2 s0 _ _ H1 H2 H3 H4).
Defined.

(** [AgentSDK.run_json] with the agents wrapper: an empty first reply is
    returned as the empty mapping after that one request; neither the
    fallback request nor the chat-completions loop is tried. *)
Theorem run_json_agents_empty_reply backend loads user hint attempts s :
  backend (calls s) true user = RContent [] ->
  run_json backend loads WithAgents user hint attempts s
  = (inr (JObj []), mkState (S (calls s)) (last_error s) (Some [])).
Proof.
  intros Hb. rewrite run_json_agents. unfold agents_path.
  cbv [catch mbind M_bind bind create set_raw]. rewrite Hb. reflexivity.
Qed.

Lemma run_json_agents_empty_reply_witness :
  content_backend (fun _ => []) (calls s0) true [] = RContent []
  /\ run_json (content_backend (fun _ => [])) json_loads WithAgents [] None 2 s0
     = (inr (JObj []), mkState 1 None (Some [])).
Proof.
  split; [reflexivity|].
  apply (run_json_agents_empty_reply (content_backend (fun _ => [])) json_loads [] None 2 s0).
  reflexivity.
Defined.

(** The incident-coding loop of [run_job] ([chunk_size = 1]): a segment
    costs one call of [run_incident_coding] when the first reply carries a
    non-blank label and two otherwise, so the stage makes between [n] and
    [2 n] calls for [n] segments: exactly [n] when every reply is labelled,
    and exactly [2 n] with an empty incident list when every reply is empty. *)
Theorem incident_loop_call_count f segs :
  (forall st seg,
     length (windows (process_segment f st seg))
     = (length (windows st)
        + if has_labels (f (length (windows st)) seg (py_tail 20 (prior st))) then 1 else 2)%nat)
  /\ (length segs <= length (windows (incident_loop f segs)) <= 2 * length segs)%nat
  /\ ((forall n seg w, has_labels (f n seg w) = true) ->
      length (windows (incident_loop f segs)) = length segs)
  /\ ((forall n seg w, f n seg w = []) ->
      length (windows (incident_loop f segs)) = (2 * length segs)%nat
      /\ incident_stage f segs = []).
Proof.
  split; [intros; apply process_segment_windows|]. unfold incident_loop.
  split; [pose proof (loop_windows_bounds f segs istate0) as H; simpl in H; lia|].
  split.
  - intros H. rewrite (loop_windows_labelled f segs istate0 H). reflexivity.
  - intros H. destruct (loop_windows_empty f segs istate0 H) as [H1 H2].
    split; [rewrite H1; reflexivity|].
    unfold incident_stage, incident_loop. rewrite H2. apply order_records_empty.
Qed.

(** The incident-coding loop of [run_job] stores only cleaned labels: every
    label of a note in the incident map, hence of the incident artifact, is
    non-empty and has no surrounding whitespace, and every prior-context entry
    (stored, or passed to a later call) has such a label and names the key of
    one of the segments. *)
Theorem incident_labels_clean f segs :
  (forall k n, imap (incident_loop f segs) !! k = Some n -> Forall label_ok (note_labels n))
  /\ Forall (fun n => Forall label_ok (note_labels n)) (incident_stage f segs)
  /\ Forall (prior_ok (map seg_key segs)) (prior (incident_loop f segs))
  /\ Forall (Forall (prior_ok (map seg_key segs))) (windows (incident_loop f segs)).
Proof.
  assert (Hf : Forall (fun seg => seg_key seg ∈ map seg_key segs) segs).
  { apply Forall_forall. intros seg Hin. apply list_elem_of_fmap_2. exact Hin. }
  assert (HM0 : map_ok (imap istate0)).
  { intros k n. simpl. rewrite lookup_empty. discriminate. }
  destruct (loop_ok (map seg_key segs) f segs istate0 Hf HM0 (Forall_nil_2 _)) as [HM HP].
  split; [exact HM|]. split; [|split; [exact HP|]].
  - unfold incident_stage, order_records. apply Forall_forall. intros n Hn.
    apply list_elem_of_omap in Hn as [k [_ Hk]]. exact (HM k n Hk).
  - apply loop_windows_ok; auto.
Qed.

(** [concurrency_for_tier]: for every requested tier (or the default tier
    when none is given) and every environment override, no [KeyError] is
    raised: the resolved tier is the requested one when it lies in 1..5 and
    1 otherwise, both concurrency values are positive, and each equals the
    tier's preset when its environment variable is unset. *)
Theorem concurrency_for_tier_total py_int default_api_tier env_summary env_open tier :
  exists t su op bs bo,
    Config.concurrency_for_tier py_int default_api_tier env_summary env_open tier = Some (t, su, op)
    /\ Config.tier_preset t = Some (bs, bo)
    /\ (1 <= t <= 5)%Z
    /\ t = (let x := match tier with Some t => t | None => default_api_tier end in
            if ((1 <=? x) && (x <=? 5))%Z then x else 1%Z)
    /\ (0 < su)%Z /\ (0 < op)%Z
    /\ (env_summary = None -> su = bs) /\ (env_open = None -> op = bo).
Proof.
  unfold Config.concurrency_for_tier.
  set (x := match tier with Some t => t | None => default_api_tier end).
  assert (Ht : (1 <= Config.sanitize_tier x <= 5)%Z).
  { rewrite ConfigFacts.sanitize_tier_spec. destruct ((1 <=? x) && (x <=? 5))%Z eqn:E; lia. }
  destruct (ConfigFacts.tier_preset_some _ Ht) as (bs & bo & E & Hbs & Hbo). rewrite E.
  exists (Config.sanitize_tier x), (Config.sanitize_concurrency py_int env_summary bs),
    (Config.sanitize_concurrency py_int env_open bo), bs, bo.
  split; [reflexivity|]. split; [exact E|]. split; [exact Ht|].
  split; [apply ConfigFacts.sanitize_tier_spec|].
  split; [apply ConfigFacts.sanitize_concurrency_pos, Hbs|].
  split; [apply ConfigFacts.sanitize_concurrency_pos, Hbo|].
  split; intros ->; reflexivity.
Qed.

(** [start]: the parameters handed to the worker have 1 or 2 coders, a
    segment length among [SEGMENT_LENGTH_OPTIONS] and no category maximum
    when automatic categories are chosen; the stored study background and
    theoretical framework are stripped and hold the first (at most) 1000
    words of the stripped form fields. *)
Theorem start_params_sanitized py_int form :
  let p := App.start_params_of py_int form in
  (p_coders p = 1 \/ p_coders p = 2)%Z
  /\ In (p_segment_length p) App.SEGMENT_LENGTH_OPTIONS
  /\ (p_auto_categories p = true -> p_max_categories p = 0%Z)
  /\ strip (p_study_background p) = p_study_background p
  /\ words (p_study_background p) = take 1000 (words (strip (default [] (form (u "study_background")))))
  /\ (length (words (p_study_background p)) <= 1000)%nat
  /\ strip (p_theoretical_framework p) = p_theoretical_framework p
  /\ words (p_theoretical_framework p)
     = take 1000 (words (strip (default [] (form (u "theoretical_framework")))))
  /\ (length (words (p_theoretical_framework p)) <= 1000)%nat.
Proof.
  intros p. unfold p, App.start_params_of. cbn [p_coders p_segment_length p_auto_categories
    p_max_categories p_study_background p_theoretical_framework].
  destruct (AppFacts.start_text_spec (default [] (form (u "study_background")))) as (B1 & B2 & B3).
  destruct (AppFacts.start_text_spec (default [] (form (u "theoretical_framework"))))
    as (T1 & T2 & T3).
  split; [lia|]. split.
  - match goal with |- In (if ?b then _ else _) _ => destruct b eqn:E end.
    + apply existsb_exists in E as [y [Hy Hq]]. apply Z.eqb_eq in Hq. rewrite Hq. exact Hy.
    + simpl. right; left; reflexivity.
  - split; [destruct (bool_decide _); [reflexivity|discriminate]|].
    repeat split; assumption.
Qed.

(** [start]: an upload is stored exactly when its lower-cased suffix is
    .txt, .pdf or .docx, under the name [safe ++ ext] where [safe] is
    non-empty, neither starts nor ends with '-', and is either [file] or made
    of alphanumeric characters and '-', '_', '.', so the name has no '/'
    (which is not alphanumeric).  The mapping is not injective: a space and a
    '-' give the same stored name. *)
Theorem upload_name_safe isalnum stem suffix :
  (forall name, App.upload_name isalnum stem suffix = Some name ->
     exists safe ext, name = safe ++ ext /\ ext = lower suffix /\ ext ∈ App.allowed_exts
       /\ safe <> [] /\ (forall r, safe <> 45 :: r) /\ (forall r, safe <> r ++ [45])
       /\ (safe = u "file" \/ Forall (AppFacts.name_char isalnum) safe)
       /\ (isalnum 47 = false -> 47 ∉ name))
  /\ (App.upload_name isalnum stem suffix = None <-> lower suffix ∉ App.allowed_exts)
  /\ (isalnum 32 = false ->
      App.upload_name isalnum (u "a b") suffix = App.upload_name isalnum (u "a-b") suffix).
Proof.
  unfold App.upload_name. split; [|split].
  - intros name. case_bool_decide as He; [|discriminate]. intros Hn. injection Hn as <-.
    destruct (AppFacts.safe_stem_spec isalnum stem) as (S1 & S2 & S3 & S4).
    exists (App.safe_stem isalnum stem), (lower suffix).
    do 7 (split; [first [reflexivity|assumption]|]).
    intros H47 Hin. apply elem_of_app in Hin as [Hin|Hin].
    + destruct S4 as [E|Hf].
      * rewrite E in Hin. apply list_elem_of_In in Hin. simpl in Hin. lia.
      * rewrite Forall_forall in Hf. destruct (Hf 47 Hin) as [A|A]; [congruence|lia].
    + exact (AppFacts.allowed_exts_no_slash _ He Hin).
  - case_bool_decide as He; split; intros H; first [discriminate|contradiction|reflexivity|assumption].
  - intros H.
    assert (Hm : map (App.sanitize_char isalnum) (u "a b") = map (App.sanitize_char isalnum) (u "a-b")).
    { change (u "a b") with [97; 32; 98]. change (u "a-b") with [97; 45; 98]. cbn [map].
      rewrite (AppFacts.sanitize_space isalnum H). reflexivity. }
    unfold App.safe_stem. rewrite Hm. reflexivity.
Qed.

(** [_trim_to_sentences]: with a positive limit, trimming a result again
    returns it unchanged. *)
Theorem trim_to_sentences_idempotent (text : pystr) (m : Z) :
  (0 < m)%Z ->
  exists r, Trim.trim_to_sentences text m = Some r /\ Trim.trim_to_sentences r m = Some r.
Proof.
  intros Hm. destruct (TrimResult.trim_result_exists text m Hm) as [r Hr].
  exists r. split; [exact Hr|].
  destruct (TrimResult.trim_result_shape text m r Hm Hr) as [Hs Hl].
  exact (TrimResult.trim_fixed r m Hs Hl).
Qed.

Lemma trim_to_sentences_idempotent_witness :
  (0 < 2)%Z /\
  exists r, Trim.trim_to_sentences (u " A. B! C? D. ") 2 = Some r
    /\ Trim.trim_to_sentences r 2 = Some r.
Proof. split; [lia|]. apply (trim_to_sentences_idempotent (u " A. B! C? D. ") 2). lia. Defined.

(** [build_segment_maps]: [by_key[(t, n)]] holds the text of the last
    segment with that transcript and number (as both [raw] and [ivw]), and
    [per_tx[t][key]] is defined exactly when [key = str(n)] for some [n] with
    [by_key[(t, n)]] defined, and then holds the same text. *)
Theorem build_segment_maps_consistent (segs : list Incident.segment) :
  (forall k, fst (SegMaps.build_segment_maps segs) !! k
     = (fun s => (Incident.seg_text s, Incident.seg_text s))
       <$> SegMaps.last_such (fun s => bool_decide (Incident.seg_key s = k)) segs)
  /\ (forall t n, (snd (SegMaps.build_segment_maps segs) !! t ≫= (fun m => m !! str_of_Z n))
       = fst <$> (fst (SegMaps.build_segment_maps segs) !! (t, n)))
  /\ (forall t key r, (snd (SegMaps.build_segment_maps segs) !! t ≫= (fun m => m !! key)) = Some r ->
       exists n, key = str_of_Z n /\ fst (SegMaps.build_segment_maps segs) !! (t, n) = Some (r, r)).
Proof.
  split; [exact (SegMapsFacts.build_by_key segs)|]. split.
  - intros t n. rewrite SegMapsFacts.build_per_tx, SegMapsFacts.build_by_key.
    assert (Hp : forall s, bool_decide (Incident.seg_transcript s = t /\ str_of_Z (Incident.seg_number s) = str_of_Z n)
                 = bool_decide (Incident.seg_key s = (t, n))).
    { intros s. unfold Incident.seg_key.
      apply bool_decide_ext. split.
      - intros [-> E]. apply SegMapsFacts.str_of_Z_inj in E. rewrite E. reflexivity.
      - intros E. injection E as -> ->. auto. }
    rewrite (SegMapsFacts.last_such_ext _ _ segs Hp). destruct (SegMaps.last_such _ segs); reflexivity.
  - intros t key r. rewrite SegMapsFacts.build_per_tx.
    destruct (SegMaps.last_such _ segs) as [s|] eqn:Hl; [|discriminate].
    intros Hr. injection Hr as <-.
    assert (Hs : bool_decide (Incident.seg_transcript s = t /\ str_of_Z (Incident.seg_number s) = key) = true).
    { apply (SegMapsFacts.last_such_sat _ _ _ Hl). }
    apply bool_decide_eq_true in Hs. destruct Hs as [Ht Hk].
    exists (Incident.seg_number s). split; [symmetry; exact Hk|].
    rewrite SegMapsFacts.build_by_key.
    assert (Hp : forall s', bool_decide (Incident.seg_key s' = (t, Incident.seg_number s))
                 = bool_decide (Incident.seg_transcript s' = t /\ str_of_Z (Incident.seg_number s') = key)).
    { intros s'. unfold Incident.seg_key.
      apply bool_decide_ext. split.
      - intros E. injection E as -> ->. auto.
      - intros [-> E]. rewrite <- Hk in E. apply SegMapsFacts.str_of_Z_inj in E. rewrite E. reflexivity. }
    rewrite (SegMapsFacts.last_such_ext _ _ segs Hp), Hl. reflexivity.
Qed.

End Extras.
